(** * Tag rules of the metadata action: [Parse] and [Transform] of src/tag.ts

    A shallow embedding of [src/tag.ts] and of the JavaScript and csv-parse
    primitives it calls, followed by the properties of the parser and of the
    set builder.

    Strings.  A JavaScript string is a sequence of UTF-16 code units.  The
    embedding uses Rocq's [string], read as a sequence of code units below
    256 (the Latin-1 range): [trim], [toLowerCase] and [Number] are modelled
    exactly on that range, which is closed under all of them. *)

From Stdlib Require Import ZArith Ascii String Floats.SpecFloat.
From stdpp Require Import gmap strings list fin_maps sorting.

(** ** Exceptions and results

    [throw new Error(msg)] of tag.ts is [Error msg]; csv-parse throws a
    [CsvError] carrying a code; iterating over [undefined] is a [TypeError]. *)

Inductive CsvErrorCode :=
  | INVALID_OPENING_QUOTE
  | CSV_INVALID_CLOSING_QUOTE
  | CSV_QUOTE_NOT_CLOSED.

Inductive exn :=
  | Error (message : string)
  | CsvError (code : CsvErrorCode)
  | TypeError.

Inductive result (A : Type) :=
  | Ok (a : A)
  | Throw (e : exn).
Arguments Ok {A} a.
Arguments Throw {A} e.

(** Sequencing: an exception thrown by the first computation propagates.
    Below, [x ← r; k] is stdpp's notation for [mbind (λ x, k) r]. *)
#[global] Instance result_bind : MBind result := λ A B k r,
  match r with
  | Ok a => k a
  | Throw e => Throw e
  end.

(** ** JavaScript string primitives *)

Module JS.

Definition code (c : ascii) : N := N_of_ascii c.

(** WhiteSpace and LineTerminator code points below 256: TAB, LF, VT, FF,
    CR, SP and NBSP.  This is the set removed by [String.prototype.trim]
    and skipped around a numeric literal by [Number]. *)
Definition isWhiteSpace (c : ascii) : bool :=
  let n := code c in
  ((9 <=? n) && (n <=? 13) || (n =? 32) || (n =? 160))%N.

Fixpoint trimStart (s : string) : string :=
  match s with
  | String c s' => if isWhiteSpace c then trimStart s' else s
  | EmptyString => EmptyString
  end.

Fixpoint trimEnd (s : string) : string :=
  match s with
  | String c s' =>
      match trimEnd s' with
      | EmptyString => if isWhiteSpace c then EmptyString else String c EmptyString
      | r => String c r
      end
  | EmptyString => EmptyString
  end.

Definition trim (s : string) : string := trimStart (trimEnd s).

(** [toLowerCase] on code units below 256: A-Z, and the Latin-1 capitals
    U+00C0-U+00DE except the multiplication sign U+00D7, move up by 32. *)
Definition lowerChar (c : ascii) : ascii :=
  let n := code c in
  if ((65 <=? n) && (n <=? 90) || (192 <=? n) && (n <=? 222) && negb (n =? 215))%N
  then ascii_of_N (n + 32) else c.

Fixpoint toLowerCase (s : string) : string :=
  match s with
  | String c s' => String (lowerChar c) (toLowerCase s')
  | EmptyString => EmptyString
  end.

(** [s.split(sep)] for a one-character separator: every occurrence
    separates, and the empty string gives one empty piece. *)
Fixpoint split (sep : ascii) (s : string) : list string :=
  match s with
  | EmptyString => [EmptyString]
  | String c s' =>
      if Ascii.eqb c sep then EmptyString :: split sep s'
      else match split sep s' with
           | p :: ps => String c p :: ps
           | [] => [String c EmptyString]
           end
  end.

(** [s.split(sep, limit)]: the pieces of [s.split(sep)], truncated to the
    first [limit] of them.  The remainder of the string is dropped. *)
Definition split_limit (sep : ascii) (limit : nat) (s : string) : list string :=
  take limit (split sep s).

(** [array.includes(x)] on an array of strings. *)
Definition includes (l : list string) (x : string) : bool :=
  existsb (String.eqb x) l.

(** *** Numbers

    A Number is an IEEE 754 binary64 value, here a [spec_float] of precision
    53 and maximal exponent 1024.  [Number(s)] is StringToNumber of
    ECMAScript: white space around the literal is skipped, the empty string
    is 0, a StrNumericLiteral has its mathematical value rounded to nearest,
    ties to even (for any number of digits, as V8 does), and anything else
    is NaN.  The sign of a zero is kept though nothing in tag.ts observes
    it. *)

Definition prec : Z := 53.
Definition emax : Z := 1024.

Definition isNaN (x : spec_float) : bool :=
  match x with S754_nan => true | _ => false end.

(** [x < y] on Numbers; false as soon as an operand is NaN. *)
Definition lt (x y : spec_float) : bool := SFltb x y.

(** [x == y] on Numbers; false as soon as an operand is NaN. *)
Definition eq (x y : spec_float) : bool := SFeqb x y.

(** The Number of [(-1)^neg * m * 10^e10], for a natural number [m]. *)
Definition ofDecimal (neg : bool) (m : Z) (e10 : Z) : spec_float :=
  if (m =? 0)%Z then S754_zero neg
  else if (0 <=? e10)%Z then
    binary_normalize prec emax (cond_Zopp neg (m * 10 ^ e10)) 0 neg
  else
    let '(q, e, l) := SFdiv_core_binary prec emax m 0 (10 ^ (- e10)) 0 in
    binary_round_aux prec emax neg q e l.

(** The value of a digit in a base up to 16, when the character is one. *)
Definition digitValue (base : N) (c : ascii) : option N :=
  let n := code c in
  let v := (if (48 <=? n) && (n <=? 57) then Some (n - 48)
            else if (97 <=? n) && (n <=? 102) then Some (n - 87)
            else if (65 <=? n) && (n <=? 70) then Some (n - 55)
            else None)%N in
  match v with
  | Some d => if (d <? base)%N then Some d else None
  | None => None
  end.

(** The longest prefix of digits of [s] in [base], read onto the
    accumulator [acc], with its length and the rest of [s]. *)
Fixpoint readDigits (base : N) (acc : N) (len : nat) (s : string) : N * nat * string :=
  match s with
  | String c s' =>
      match digitValue base c with
      | Some d => readDigits base (acc * base + d)%N (S len) s'
      | None => (acc, len, s)
      end
  | EmptyString => (acc, len, s)
  end.

(** A leading sign: the flag is true for [-]. *)
Definition readSign (s : string) : bool * string :=
  match s with
  | String "+" s' => (false, s')
  | String "-" s' => (true, s')
  | _ => (false, s)
  end.

(** ExponentPart, or nothing: the exponent when the rest of the literal is
    well formed. *)
Definition readExponent (s : string) : option Z :=
  match s with
  | EmptyString => Some 0%Z
  | String c s' =>
      if Ascii.eqb c "e" || Ascii.eqb c "E" then
        let '(neg, s'') := readSign s' in
        match readDigits 10 0 0 s'' with
        | (_, O, _) => None
        | (n, _, EmptyString) => Some (cond_Zopp neg (Z.of_N n))
        | _ => None
        end
      else None
  end.

(** StrUnsignedDecimalLiteral other than Infinity: digits with an optional
    fraction and exponent, at least one digit before the exponent. *)
Definition readUnsignedDecimal (neg : bool) (s : string) : spec_float :=
  let '(ip, ilen, s1) := readDigits 10 0 0 s in
  let '(m, flen, s2) :=
    match s1 with
    | String "." s1' =>
        let '(m, flen, s2) := readDigits 10 ip 0 s1' in (m, flen, s2)
    | _ => (ip, O, s1)
    end in
  match ilen + flen, readExponent s2 with
  | S _, Some e => ofDecimal neg (Z.of_N m) (e - Z.of_nat flen)
  | _, _ => S754_nan
  end.

(** NonDecimalIntegerLiteral: the digits that follow the prefix, all of
    them in [base] and at least one. *)
Definition readNonDecimal (base : N) (s : string) : spec_float :=
  match readDigits base 0 0 s with
  | (_, O, _) => S754_nan
  | (n, _, EmptyString) => ofDecimal false (Z.of_N n) 0
  | _ => S754_nan
  end.

Definition Number (s : string) : spec_float :=
  match trim s with
  | EmptyString => S754_zero false
  | String "0" (String "x" r) | String "0" (String "X" r) => readNonDecimal 16 r
  | String "0" (String "o" r) | String "0" (String "O" r) => readNonDecimal 8 r
  | String "0" (String "b" r) | String "0" (String "B" r) => readNonDecimal 2 r
  | t =>
      let '(neg, u) := readSign t in
      if String.eqb u "Infinity" then S754_infinity neg
      else readUnsignedDecimal neg u
  end.

(** A property read from an object is a string, or undefined when the
    object has no such property.  [Number(undefined)] is NaN, no array of
    strings includes undefined, and a template literal prints it. *)
Definition NumberOf (v : option string) : spec_float :=
  match v with Some s => Number s | None => S754_nan end.

Definition includesProperty (l : list string) (v : option string) : bool :=
  match v with Some s => includes l s | None => false end.

Definition template (v : option string) : string :=
  match v with Some s => s | None => "undefined" end.

End JS.

(** ** The csv-parse tokenizer

    [csvparse(s, {relaxColumnCount: true, skipLinesWithEmptyValues: true})]
    of csv-parse 4 ([csv-parse/lib/sync]), with every other option at its
    default: comma as delimiter, the double quote as quote and as escape, no
    trimming, no comments, and the record delimiter discovered from the input
    (CR LF, CR or LF, whichever comes first outside quotes).  The parser is a
    loop over the characters of the input that threads a state; the state
    below keeps the fields of the parser state that these options can reach.
    [relaxColumnCount] only silences the error for records of different
    lengths; [skipLinesWithEmptyValues] drops a record when every field of it
    is blank, and never drops a field of a record that is kept. *)

Module Csv.

Inductive RecordDelimiter := CRLF | CR | LF.

Record State := {
  quoting : bool;
  wasQuoting : bool;
  escaping : bool;
  field : string;
  record : list string;
  records : list (list string);
  record_delimiter : option RecordDelimiter
}.

Definition init : State :=
  {| quoting := false; wasQuoting := false; escaping := false;
     field := ""; record := []; records := []; record_delimiter := None |}.

Definition cr : ascii := ascii_of_N 13.
Definition nl : ascii := ascii_of_N 10.
Definition dquote : ascii := ascii_of_N 34.
Definition isQuote (c : ascii) : bool := Ascii.eqb c dquote.
Definition isDelimiter (c : ascii) : bool := Ascii.eqb c ",".

(** [__autoDiscoverRecordDelimiter(buf, pos)], [buf] being the input from
    [pos] on: the delimiter found at this position, if any. *)
Definition autoDiscoverRecordDelimiter (buf : string) : option RecordDelimiter :=
  match buf with
  | String c rest =>
      if Ascii.eqb c cr then
        match rest with
        | String c' _ => if Ascii.eqb c' nl then Some CRLF else Some CR
        | EmptyString => Some CR
        end
      else if Ascii.eqb c nl then Some LF
      else None
  | EmptyString => None
  end.

(** The discovery runs only while no delimiter is known. *)
Definition discover (st : State) (buf : string) : State :=
  match record_delimiter st with
  | Some _ => st
  | None =>
      {| quoting := quoting st; wasQuoting := wasQuoting st; escaping := escaping st;
         field := field st; record := record st; records := records st;
         record_delimiter := autoDiscoverRecordDelimiter buf |}
  end.

(** [__isRecordDelimiter(chr, buf, pos)]: the length of the record delimiter
    that starts at this position, 0 when there is none. *)
Definition isRecordDelimiter (rd : option RecordDelimiter) (buf : string) : nat :=
  match rd, buf with
  | Some CRLF, String c (String c' _) => if Ascii.eqb c cr && Ascii.eqb c' nl then 2 else 0
  | Some CR, String c _ => if Ascii.eqb c cr then 1 else 0
  | Some LF, String c _ => if Ascii.eqb c nl then 1 else 0
  | _, _ => 0
  end.

Definition set_quoting (q wq : bool) (st : State) : State :=
  {| quoting := q; wasQuoting := wq; escaping := escaping st;
     field := field st; record := record st; records := records st;
     record_delimiter := record_delimiter st |}.

Definition set_escaping (e : bool) (st : State) : State :=
  {| quoting := quoting st; wasQuoting := wasQuoting st; escaping := e;
     field := field st; record := record st; records := records st;
     record_delimiter := record_delimiter st |}.

(** [this.state.field.append(chr)] *)
Definition append (c : ascii) (st : State) : State :=
  {| quoting := quoting st; wasQuoting := wasQuoting st; escaping := escaping st;
     field := field st +:+ String c EmptyString;
     record := record st; records := records st;
     record_delimiter := record_delimiter st |}.

(** [__onField]: the field read so far, empty or not, joins the record. *)
Definition onField (st : State) : State :=
  {| quoting := quoting st; wasQuoting := false; escaping := escaping st;
     field := "";
     record := record st ++ [field st]; records := records st;
     record_delimiter := record_delimiter st |}.

(** [skip_lines_with_empty_values]: a record is empty when every field of it
    trims to the empty string. *)
Definition isRecordEmpty (r : list string) : bool :=
  forallb (λ f, String.eqb (JS.trim f) "") r.

(** [__onRecord]: the record is emitted unless it is empty. *)
Definition onRecord (st : State) : State :=
  {| quoting := quoting st; wasQuoting := wasQuoting st; escaping := escaping st;
     field := field st;
     record := [];
     records := if isRecordEmpty (record st) then records st
                else records st ++ [record st];
     record_delimiter := record_delimiter st |}.

(** The character that follows a closing quote must end the field:
    [!nextChr || isNextChrDelimiter || isNextChrRecordDelimiter].  [!nextChr]
    holds at the end of the input and also for the code unit 0. *)
Definition endsField (rd : option RecordDelimiter) (rest : string) : bool :=
  match rest with
  | EmptyString => true
  | String c _ =>
      (JS.code c =? 0)%N || isDelimiter c ||
      match rd with
      | None => bool_decide (is_Some (autoDiscoverRecordDelimiter rest))
      | Some _ => negb (Nat.eqb (isRecordDelimiter rd rest) 0)
      end
  end.

Definition nextIsQuote (rest : string) : bool :=
  match rest with
  | String c _ => isQuote c
  | EmptyString => false
  end.

(** The loop of [__parse] over the input, one iteration per character
    ([buf] is the input from the current position on). *)
Fixpoint parse_loop (st : State) (buf : string) : result State :=
  match buf with
  | EmptyString => Ok st
  | String chr rest =>
      let st := if quoting st then st else discover st buf in
      if escaping st then
        parse_loop (append chr (set_escaping false st)) rest
      else if quoting st && isQuote chr && nextIsQuote rest then
        parse_loop (set_escaping true st) rest
      else if isQuote chr then
        if quoting st then
          let st := discover st rest in
          if endsField (record_delimiter st) rest
          then parse_loop (set_quoting false true st) rest
          else Throw (CsvError CSV_INVALID_CLOSING_QUOTE)
        else if negb (String.eqb (field st) "")
        then Throw (CsvError INVALID_OPENING_QUOTE)
        else parse_loop (set_quoting true (wasQuoting st) st) rest
      else if quoting st then
        parse_loop (append chr st) rest
      else
        match isRecordDelimiter (record_delimiter st) buf with
        | 0 =>
            if isDelimiter chr then parse_loop (onField st) rest
            else parse_loop (append chr st) rest
        | 1 => parse_loop (onRecord (onField st)) rest
        | _ =>
            match rest with
            | String _ rest' => parse_loop (onRecord (onField st)) rest'
            | EmptyString => Ok (onRecord (onField st))
            end
        end
  end.

(** The end of the input: an open quote is an error; a last record without
    record delimiter is emitted when it has any content. *)
Definition parse_end (st : State) : result State :=
  if quoting st then Throw (CsvError CSV_QUOTE_NOT_CLOSED)
  else if wasQuoting st || negb (Nat.eqb (length (record st)) 0)
          || negb (String.eqb (field st) "")
  then Ok (onRecord (onField st))
  else Ok st.

Definition csvparse (s : string) : result (list (list string)) :=
  st ← parse_loop init s;
  st ← parse_end st;
  Ok (records st).

End Csv.

(** ** src/tag.ts: the data model *)

(** [enum Type].  Its members are the strings of [TypeValue]. *)
Inductive TagType := Schedule | Semver | Match | Edge | Ref | Raw | Sha.

Definition TypeValue (t : TagType) : string :=
  match t with
  | Schedule => "schedule"
  | Semver => "semver"
  | Match => "match"
  | Edge => "edge"
  | Ref => "ref"
  | Raw => "raw"
  | Sha => "sha"
  end.

(** [Object.values(Type)], in declaration order. *)
Definition TypeValues : list TagType := [Schedule; Semver; Match; Edge; Ref; Raw; Sha].

(** The member of [Type] whose string is [value], that is the outcome of
    [Object.values(Type).includes(value)] followed by [tag.type = value]. *)
Definition TypeOfValue (value : string) : option TagType :=
  find (λ t, String.eqb (TypeValue t) value) TypeValues.

Module RefEvent.
Inductive t := Branch | Tag | PR.
Definition value (e : t) : string :=
  match e with Branch => "branch" | Tag => "tag" | PR => "pr" end.
(** [Object.keys(RefEvent).map(k => RefEvent[k])] *)
Definition values : list string := map value [Branch; Tag; PR].
End RefEvent.

Module ShaFormat.
Inductive t := Short | Long.
Definition value (f : t) : string :=
  match f with Short => "short" | Long => "long" end.
(** [Object.keys(ShaFormat).map(k => ShaFormat[k])] *)
Definition values : list string := map value [Short; Long].
End ShaFormat.

(** [class Tag]: [type] is undefined until a type token is read; [attrs] is
    an object used as a map from strings to strings. *)
Record Tag := {
  type : option TagType;
  attrs : gmap string string
}.

(** [new Tag()] *)
Definition newTag : Tag := {| type := None; attrs := ∅ |}.

Definition DefaultPriorities (t : TagType) : string :=
  match t with
  | Schedule => "1000"
  | Semver => "900"
  | Match => "800"
  | Edge => "700"
  | Ref => "600"
  | Raw => "200"
  | Sha => "100"
  end.

(** [o.hasOwnProperty(k)] *)
Definition hasOwnProperty (o : gmap string string) (k : string) : bool :=
  bool_decide (is_Some (o !! k)).

(** [o[k] = v] for a key computed at run time.  An object literal inherits
    the accessor [__proto__] of [Object.prototype], whose setter ignores a
    string: that one key creates no property.  Every other key becomes an
    own property of the object. *)
Definition setProperty (o : gmap string string) (k v : string) : gmap string string :=
  if String.eqb k "__proto__" then o else <[k := v]> o.

(** ** src/tag.ts: [Parse] *)

(** The body of the loop over the fields (lines 94 to 113). *)
Definition parseField (tag : Tag) (field : string) : result Tag :=
  match JS.split_limit "=" 2 field with
  | [] => Throw TypeError
  | [p0] =>
      Ok {| type := type tag; attrs := <["value" := JS.trim p0]> (attrs tag) |}
  | p0 :: p1 :: _ =>
      let key := JS.toLowerCase (JS.trim p0) in
      let value := JS.trim p1 in
      if String.eqb key "type" then
        match TypeOfValue value with
        | None => Throw (Error ("Unknown tag type attribute: " +:+ value))
        | Some t => Ok {| type := Some t; attrs := attrs tag |}
        end
      else Ok {| type := type tag; attrs := setProperty (attrs tag) key value |}
  end.

(** [for (const field of fields)] *)
Fixpoint parseFields (tag : Tag) (fields : list string) : result Tag :=
  match fields with
  | [] => Ok tag
  | field :: fields' =>
      tag' ← parseField tag field;
      parseFields tag' fields'
  end.

(** [if (!a.hasOwnProperty(k)) a[k] = v] *)
Definition setDefault (k v : string) (a : gmap string string) : gmap string string :=
  if hasOwnProperty a k then a else <[k := v]> a.

(** [switch (tag.type)] (lines 120 to 195), on the attributes. *)
Definition checkType (s : string) (t : TagType) (a : gmap string string)
  : result (gmap string string) :=
  match t with
  | Schedule => Ok (setDefault "pattern" "nightly" a)
  | Semver =>
      if negb (hasOwnProperty a "pattern")
      then Throw (Error ("Missing pattern attribute for " +:+ s))
      else Ok (setDefault "value" "" a)
  | Match =>
      if negb (hasOwnProperty a "pattern")
      then Throw (Error ("Missing pattern attribute for " +:+ s))
      else
        let a := setDefault "group" "0" a in
        if JS.isNaN (JS.NumberOf (a !! "group"))
        then Throw (Error ("Invalid match group for " +:+ s))
        else Ok (setDefault "value" "" a)
  | Edge => Ok (setDefault "branch" "" a)
  | Ref =>
      match a !! "event" with
      | None => Throw (Error ("Missing event attribute for " +:+ s))
      | Some event =>
          if negb (JS.includes RefEvent.values event)
          then Throw (Error ("Invalid event for " +:+ s))
          else if String.eqb event (RefEvent.value RefEvent.PR)
                  && negb (hasOwnProperty a "prefix")
          then Ok (<["prefix" := "pr-"]> a)
          else Ok a
      end
  | Raw =>
      if negb (hasOwnProperty a "value")
      then Throw (Error ("Missing value attribute for " +:+ s))
      else Ok a
  | Sha =>
      let a := setDefault "prefix" "sha-" a in
      let a := setDefault "format" (ShaFormat.value ShaFormat.Short) a in
      if negb (JS.includesProperty ShaFormat.values (a !! "format"))
      then Throw (Error ("Invalid format for " +:+ s))
      else Ok a
  end.

(** Lines 197 to 205: the defaults of [enable] and [priority], and the
    check of [enable]. *)
Definition finish (t : TagType) (a : gmap string string) : result Tag :=
  let a := setDefault "enable" "true" a in
  let a := setDefault "priority" (DefaultPriorities t) a in
  if negb (JS.includesProperty ["true"; "false"] (a !! "enable"))
  then Throw (Error ("Invalid value for enable attribute: " +:+ JS.template (a !! "enable")))
  else Ok {| type := Some t; attrs := a |}.

(** [csvparse(s, ...)[0]]; the loop over an undefined first record throws. *)
Definition fieldsOf (s : string) : result (list string) :=
  rs ← Csv.csvparse s;
  match rs with
  | fields :: _ => Ok fields
  | [] => Throw TypeError
  end.

(** Lines 87 to 114: the tag as the tokens of the line make it. *)
Definition readTag (s : string) : result Tag :=
  fields ← fieldsOf s;
  parseFields newTag fields.

Definition Parse (s : string) : result Tag :=
  tag ← readTag s;
  let t := default Raw (type tag) in
  a ← checkType s t (attrs tag);
  finish t a.

(** ** src/tag.ts: [Transform] *)

(** The built-in inputs that replace an empty list. *)
Definition defaultInputs : list string :=
  [ "type=schedule";
    "type=ref,event=" +:+ RefEvent.value RefEvent.Branch;
    "type=ref,event=" +:+ RefEvent.value RefEvent.Tag;
    "type=ref,event=" +:+ RefEvent.value RefEvent.PR ].

(** [for (const input of inputs) tags.push(Parse(input))] *)
Fixpoint parseAll (inputs : list string) : result (list Tag) :=
  match inputs with
  | [] => Ok []
  | input :: inputs' =>
      tag ← Parse input;
      tags ← parseAll inputs';
      Ok (tag :: tags)
  end.

(** [Number(tag.attrs['priority'])] *)
Definition priority (tag : Tag) : spec_float :=
  JS.NumberOf (attrs tag !! "priority").

(** The comparison function given to [sort]. *)
Definition comparePriority (tag1 tag2 : Tag) : Z :=
  if JS.lt (priority tag1) (priority tag2) then 1
  else if JS.lt (priority tag2) (priority tag1) then -1
  else 0.

(** [Array.prototype.sort(comparefn)].  ECMAScript requires the sort to be
    stable, and fixes its result whenever [comparefn] is a consistent
    comparison function; the model is the insertion sort on arrays: each
    element in turn moves towards the front past the elements that
    [comparefn] puts after it, and stops at the first one that it does not.
    When [comparefn] is not consistent (here: when a priority is NaN) the
    order is implementation-defined, and the properties of the order below
    are stated for inputs without such a priority. *)
Section Sort.
Context {A : Type} (comparefn : A → A → Z).

(** The elements already placed are held last first. *)
Fixpoint insertSorted (x : A) (placed : list A) : list A :=
  match placed with
  | [] => [x]
  | y :: placed' =>
      if (0 <? comparefn y x)%Z then y :: insertSorted x placed'
      else x :: placed
  end.

Definition sort (l : list A) : list A :=
  reverse (foldl (λ placed x, insertSorted x placed) [] l).
End Sort.

(** [Transform].  The calls to [core.startGroup], [core.info] and
    [core.endGroup] write the trace of the sorted tags to the log and do not
    take part in the value returned. *)
Definition Transform (inputs : list string) : result (list Tag) :=
  let inputs := if Nat.eqb (length inputs) 0 then defaultInputs else inputs in
  tags ← parseAll inputs;
  Ok (sort comparePriority tags).


(** ** Vocabulary of the statements *)

(** [c] occurs in [s]. *)
Fixpoint occurs (c : ascii) (s : string) : bool :=
  match s with
  | String c' s' => Ascii.eqb c' c || occurs c s'
  | EmptyString => false
  end.

(** A plain line has no double quote and no line break: its tokens are
    decided by its commas alone. *)
Definition plain (s : string) : bool :=
  negb (occurs Csv.dquote s) && negb (occurs Csv.cr s) && negb (occurs Csv.nl s).

(** The state of the tokenizer after the pieces between the commas of a
    plain stretch of input: the first piece continues the current field,
    every comma closes a field, the last piece is the field being read. *)
Definition feed (st : Csv.State) (pieces : list string) : Csv.State :=
  match pieces with
  | [] => st
  | [p] =>
      {| Csv.quoting := Csv.quoting st; Csv.wasQuoting := Csv.wasQuoting st;
         Csv.escaping := Csv.escaping st;
         Csv.field := Csv.field st +:+ p;
         Csv.record := Csv.record st; Csv.records := Csv.records st;
         Csv.record_delimiter := Csv.record_delimiter st |}
  | p :: ps =>
      {| Csv.quoting := Csv.quoting st; Csv.wasQuoting := false;
         Csv.escaping := Csv.escaping st;
         Csv.field := List.last ps "";
         Csv.record := Csv.record st ++ (Csv.field st +:+ p) :: removelast ps;
         Csv.records := Csv.records st;
         Csv.record_delimiter := Csv.record_delimiter st |}
  end.

(** The key of a token that has an equals sign, as the loop of [Parse]
    computes it; none for a positional token. *)
Definition fieldKey (field : string) : option string :=
  match JS.split_limit "=" 2 field with
  | p0 :: _ :: _ => Some (JS.toLowerCase (JS.trim p0))
  | _ => None
  end.

(** The lines that [Transform] parses. *)
Definition linesOf (inputs : list string) : list string :=
  if Nat.eqb (length inputs) 0 then defaultInputs else inputs.

(** [origin] tells, for every position of [out], the position in [lines]
    of the line that produced the rule: it is a rearrangement of all the
    positions of [lines], and each rule is the result of [Parse] on its
    line. *)
Definition Provenance (lines : list string) (out : list Tag) (origin : list nat) : Prop :=
  origin ≡ₚ seq 0 (length lines) ∧
  Forall2 (λ tag a, ∃ line, lines !! a = Some line ∧ Parse line = Ok tag) out origin.

(** Of two rules of [out], the first has the greater priority, or they
    have equal priorities and the first comes from the earlier line. *)
Definition StableDescending (out : list Tag) (origin : list nat) : Prop :=
  ∀ i j ti tj a b,
    i < j →
    out !! i = Some ti → out !! j = Some tj →
    origin !! i = Some a → origin !! j = Some b →
    (JS.eq (priority ti) (priority tj) = true ∧ a < b) ∨
    JS.lt (priority tj) (priority ti) = true.

(** The order that a stable sort establishes.  [after x y]: the
    comparison function puts [x] after [y].  The elements carry the position
    they had in the input, and [before p q] holds when [p] is not put after
    [q], and either [q] is put after [p] or [p] came first. *)
Definition after {A} (comparefn : A → A → Z) (x y : A) : Prop :=
  (0 <? comparefn x y)%Z = true.

Definition before {A} (comparefn : A → A → Z) (p q : nat * A) : Prop :=
  ¬ after comparefn p.2 q.2 ∧ (after comparefn q.2 p.2 ∨ p.1 < q.1).

Definition compareSnd {A} (comparefn : A → A → Z) (p q : nat * A) : Z :=
  comparefn p.2 q.2.

(** ** Vocabulary of the further properties *)

(** What the switch over the type leaves in the attributes of a rule of
    type [t]: the attributes that the type requires or defaults, with the
    values that its checks accept. *)
Definition requiredAttrs (t : TagType) (a : gmap string string) : Prop :=
  match t with
  | Schedule => is_Some (a !! "pattern")
  | Semver => is_Some (a !! "pattern") ∧ is_Some (a !! "value")
  | Match =>
      is_Some (a !! "pattern") ∧ is_Some (a !! "value") ∧
      ∃ g, a !! "group" = Some g ∧ JS.isNaN (JS.Number g) = false
  | Edge => is_Some (a !! "branch")
  | Ref =>
      ∃ ev, a !! "event" = Some ev ∧ ev ∈ RefEvent.values ∧
            (ev = "pr" → is_Some (a !! "prefix"))
  | Raw => is_Some (a !! "value")
  | Sha =>
      is_Some (a !! "prefix") ∧
      ∃ f, a !! "format" = Some f ∧ f ∈ ShaFormat.values
  end.

(** The keys that [Parse] may add to the attributes of a line. *)
Definition defaultKeys : list string :=
  ["pattern"; "value"; "group"; "branch"; "prefix"; "format"; "enable"; "priority"].

(** Keys are trimmed and in lower case, values are trimmed. *)
Definition normalAttr (k v : string) : Prop :=
  JS.toLowerCase k = k ∧ JS.trim k = k ∧ JS.trim v = v.

(** The attribute that a token writes, if any (a type token and a token of
    key [__proto__] write none), and the value it gives it. *)
Definition written (field : string) : option string :=
  match JS.split_limit "=" 2 field with
  | [_] => Some "value"
  | p0 :: _ :: _ =>
      let key := JS.toLowerCase (JS.trim p0) in
      if String.eqb key "type" || String.eqb key "__proto__" then None else Some key
  | [] => None
  end.

Definition tokenValue (field : string) : string :=
  match JS.split_limit "=" 2 field with
  | [p0] => JS.trim p0
  | _ :: p1 :: _ => JS.trim p1
  | [] => ""
  end.


(** A field of a CSV line, quoted: between double quotes, each double quote
    of the field doubled. *)
Fixpoint escapeQuotes (s : string) : string :=
  match s with
  | String c s' =>
      if Csv.isQuote c then String c (String c (escapeQuotes s'))
      else String c (escapeQuotes s')
  | EmptyString => EmptyString
  end.

Definition quoted (s : string) : string :=
  String Csv.dquote (escapeQuotes s +:+ String Csv.dquote "").

(** The strings of [l] with [sep] between them. *)
Fixpoint join (sep : ascii) (l : list string) : string :=
  match l with
  | [] => ""
  | [x] => x
  | x :: l' => x +:+ String sep (join sep l')
  end.

(** A decimal digit, and a string of decimal digits. *)
Definition isDigit (c : ascii) : bool :=
  ((48 <=? JS.code c) && (JS.code c <=? 57))%N.

Fixpoint allDigits (s : string) : bool :=
  match s with
  | String c s' => isDigit c && allDigits s'
  | EmptyString => true
  end.

(** The place of a type in the declaration of [Type]. *)
Definition typeRank (t : TagType) : nat :=
  match t with
  | Schedule => 0 | Semver => 1 | Match => 2 | Edge => 3
  | Ref => 4 | Raw => 5 | Sha => 6
  end.

(** [e] is a way to write the field [f] in a CSV line: quoted, or as it is
    when it has no quote, no line break and no comma. *)
Definition encodes (f e : string) : Prop :=
  e = quoted f ∨ (e = f ∧ plain f = true ∧ occurs "," f = false).

(** The state of the tokenizer between two records: a field is being read,
    [w] telling whether it was quoted, and no quote is open. *)
Definition reading (st : Csv.State) (w : bool) (fld : string) (rec : list string)
  : Csv.State :=
  {| Csv.quoting := false; Csv.wasQuoting := w; Csv.escaping := false;
     Csv.field := fld; Csv.record := rec; Csv.records := Csv.records st;
     Csv.record_delimiter := Csv.record_delimiter st |}.

(** * Properties *)

(** ** Sequencing and attribute updates *)

Lemma bind_Ok {A B} (r : result A) (k : A → result B) (b : B) :
  r ≫= k = Ok b ↔ ∃ a, r = Ok a ∧ k a = Ok b.
Proof.
  destruct r as [a|e]; simpl; split.
  - eauto.
  - by intros (a' & [= <-] & ?).
  - done.
  - by intros (a' & ? & _).
Qed.

Lemma hasOwnProperty_Some a k v : a !! k = Some v → hasOwnProperty a k = true.
Proof. intros H. unfold hasOwnProperty. rewrite H. by apply bool_decide_eq_true. Qed.

Lemma hasOwnProperty_None a k : a !! k = None → hasOwnProperty a k = false.
Proof.
  intros H. unfold hasOwnProperty. rewrite H.
  apply bool_decide_eq_false. by intros [? ?].
Qed.

(** A default fills a missing key and leaves every present key alone. *)
Lemma lookup_setDefault k v (a : gmap string string) k' :
  setDefault k v a !! k' =
    if decide (k = k') then Some (default v (a !! k)) else a !! k'.
Proof.
  unfold setDefault, hasOwnProperty.
  destruct (a !! k) as [x|] eqn:Hk; case_bool_decide as Hs; case_decide; subst;
    simplify_map_eq; try done.
  all: by destruct Hs.
Qed.

Lemma setDefault_preserves k v (a : gmap string string) k' v' :
  a !! k' = Some v' → setDefault k v a !! k' = Some v'.
Proof.
  intros H. rewrite lookup_setDefault. case_decide; subst; [by rewrite H|done].
Qed.

Lemma setDefault_ne k v (a : gmap string string) k' :
  k ≠ k' → setDefault k v a !! k' = a !! k'.
Proof. intros H. rewrite lookup_setDefault. by case_decide. Qed.

(** ** What the checks of [Parse] keep *)

(** The switch over the type only adds attributes that are absent. *)
Lemma checkType_preserves s t a a' k v :
  checkType s t a = Ok a' → a !! k = Some v → a' !! k = Some v.
Proof.
  intros Hc Hk. destruct t; simpl in Hc;
    repeat case_match; simplify_eq;
    repeat apply setDefault_preserves; try done.
  rewrite lookup_insert_ne; [done|].
  intros <-. rewrite andb_true_iff, negb_true_iff in *.
  destruct_and!. erewrite hasOwnProperty_Some in *; done.
Qed.

(** It never touches [enable] nor [priority]. *)
Lemma checkType_enable_priority s t a a' k :
  checkType s t a = Ok a' → k = "enable" ∨ k = "priority" → a' !! k = a !! k.
Proof.
  intros Hc Hk. destruct t; simpl in Hc;
    repeat case_match; simplify_eq;
    rewrite ?lookup_setDefault; repeat case_decide; simplify_eq;
    try done; try (by destruct Hk).
  rewrite lookup_insert_ne; [done|]. by destruct Hk as [-> | ->].
Qed.

Lemma finish_Ok t a tag :
  finish t a = Ok tag →
  type tag = Some t ∧
  attrs tag = setDefault "priority" (DefaultPriorities t) (setDefault "enable" "true" a) ∧
  (attrs tag !! "enable" = Some "true" ∨ attrs tag !! "enable" = Some "false").
Proof.
  unfold finish. case_match eqn:Hinc; [done|]. intros [= <-]; simpl.
  split_and!; [done..|].
  apply negb_false_iff in Hinc.
  destruct (setDefault "priority" _ _ !! "enable") as [e|]; [|done].
  simpl in Hinc. rewrite !orb_true_iff in Hinc.
  destruct Hinc as [?%String.eqb_eq|[?%String.eqb_eq|?]]; subst; auto. done.
Qed.

Lemma Parse_Ok s tag :
  Parse s = Ok tag ↔
  ∃ tag0 a, readTag s = Ok tag0 ∧
    checkType s (default Raw (type tag0)) (attrs tag0) = Ok a ∧
    finish (default Raw (type tag0)) a = Ok tag.
Proof.
  unfold Parse. split.
  - intros (tag0 & H0 & (a & Hc & Hf)%bind_Ok)%bind_Ok. eauto.
  - intros (tag0 & a & H0 & Hc & Hf).
    apply bind_Ok. exists tag0. split; [done|]. apply bind_Ok. eauto.
Qed.

(** ** Strings *)

Lemma append_cons c (s t : string) : String c s +:+ t = String c (s +:+ t).
Proof. reflexivity. Qed.

Lemma append_nil_l (s : string) : "" +:+ s = s.
Proof. reflexivity. Qed.

Lemma append_nil_r (s : string) : s +:+ "" = s.
Proof. induction s as [|c s IH]; [done|]. by rewrite append_cons, IH. Qed.

Lemma append_assoc (s1 s2 s3 : string) : (s1 +:+ s2) +:+ s3 = s1 +:+ (s2 +:+ s3).
Proof. induction s1 as [|c s1 IH]; [done|]. by rewrite !append_cons, IH. Qed.

Lemma split_cons sep s : ∃ p ps, JS.split sep s = p :: ps.
Proof.
  induction s as [|c s (p & ps & IH)]; simpl; [by eauto|].
  destruct (Ascii.eqb c sep); [by eauto|]. rewrite IH. eauto.
Qed.

(** Without separator the string is its only piece. *)
Lemma split_no_sep sep s : occurs sep s = false → JS.split sep s = [s].
Proof.
  induction s as [|c s IH]; simpl; [done|].
  intros [Hc Hs]%orb_false_iff. rewrite Hc, (IH Hs). done.
Qed.

(** The first piece ends at the first separator. *)
Lemma split_at_first sep k rest :
  occurs sep k = false →
  JS.split sep (k +:+ String sep rest) = k :: JS.split sep rest.
Proof.
  induction k as [|c k IH]; [rewrite append_nil_l|rewrite append_cons]; simpl.
  - by rewrite Ascii.eqb_refl.
  - intros [Hc Hk]%orb_false_iff. by rewrite Hc, (IH Hk).
Qed.

(** With a limit of two pieces, what follows a second separator is lost. *)
Lemma split_limit_second_sep sep k v w :
  occurs sep k = false → occurs sep v = false →
  JS.split_limit sep 2 (k +:+ String sep (v +:+ String sep w)) = [k; v].
Proof.
  intros Hk Hv. unfold JS.split_limit. by rewrite !split_at_first.
Qed.

(** A separator at the end adds one empty piece. *)
Lemma split_snoc_sep sep s :
  JS.split sep (s +:+ String sep "") = JS.split sep s ++ [""].
Proof.
  induction s as [|c s IH]; [rewrite append_nil_l|rewrite append_cons]; simpl.
  - by rewrite Ascii.eqb_refl.
  - destruct (Ascii.eqb c sep); rewrite IH; [done|].
    by destruct (split_cons sep s) as (p & ps & ->).
Qed.

Lemma occurs_app c s1 s2 : occurs c (s1 +:+ s2) = occurs c s1 || occurs c s2.
Proof.
  induction s1 as [|c' s1 IH]; [done|].
  rewrite append_cons. simpl. by rewrite IH, orb_assoc.
Qed.

Lemma plain_snoc_comma s : plain s = true → plain (s +:+ ",") = true.
Proof.
  unfold plain. rewrite !occurs_app. simpl. by rewrite !orb_false_r.
Qed.

(** ** The tokenizer on plain lines *)

Lemma discover_plain st c s :
  Csv.record_delimiter st = None → Ascii.eqb c Csv.cr = false →
  Ascii.eqb c Csv.nl = false → Csv.discover st (String c s) = st.
Proof.
  intros Hrd Hcr Hnl. unfold Csv.discover, Csv.autoDiscoverRecordDelimiter.
  rewrite Hrd, Hcr, Hnl. destruct st; simpl in *; by subst.
Qed.

Lemma parse_loop_plain s : ∀ st,
  plain s = true → Csv.quoting st = false → Csv.escaping st = false →
  Csv.record_delimiter st = None →
  Csv.parse_loop st s = Ok (feed st (JS.split "," s)).
Proof.
  induction s as [|c s IH]; intros st Hp Hq He Hrd.
  - simpl. rewrite append_nil_r. by destruct st.
  - unfold plain in Hp. simpl in Hp.
    rewrite !andb_true_iff, !negb_true_iff, !orb_false_iff in Hp.
    destruct Hp as [[[Hdq Hp1] [Hcr Hp2]] [Hnl Hp3]].
    assert (plain s = true) as Hps.
    { unfold plain. by rewrite Hp1, Hp2, Hp3. }
    cbn [Csv.parse_loop]. rewrite Hq, (discover_plain _ _ _ Hrd Hcr Hnl).
    rewrite He, Hq, Hrd. unfold Csv.isQuote. rewrite Hdq. cbn [andb].
    cbn [Csv.isRecordDelimiter JS.split]. unfold Csv.isDelimiter.
    destruct (Ascii.eqb c ",") eqn:Hc.
    + rewrite IH by done. f_equal.
      destruct (split_cons "," s) as (p & ps & ->).
      destruct st; destruct ps; simpl;
        by rewrite ?append_nil_l, ?append_nil_r, <-?app_assoc.
    + rewrite IH by done. f_equal.
      destruct (split_cons "," s) as (p & ps & ->).
      destruct st; destruct ps; simpl; by rewrite append_assoc.
Qed.

Lemma removelast_last_cons (p : string) ps :
  removelast (p :: ps) ++ [List.last (p :: ps) ""] = p :: ps.
Proof. symmetry. by apply app_removelast_last. Qed.

(** On a plain line the tokenizer gives the pieces between the commas as
    one record, or no record at all when every piece is blank. *)
Lemma csvparse_plain s :
  plain s = true →
  Csv.csvparse s =
    Ok (if Csv.isRecordEmpty (JS.split "," s) then [] else [JS.split "," s]).
Proof.
  intros Hp. unfold Csv.csvparse.
  rewrite (parse_loop_plain s Csv.init) by done.
  destruct (split_cons "," s) as (p & ps & ->).
  destruct ps as [|p' ps].
  - simpl. unfold Csv.parse_end. simpl. rewrite append_nil_l.
    destruct p; simpl; [done|]. by case_match.
  - pose proof (removelast_last_cons p (p' :: ps)) as E.
    unfold Csv.parse_end, Csv.onRecord, Csv.onField. simpl in *.
    rewrite append_nil_l. injection E as ->. done.
Qed.

Lemma fieldsOf_plain s :
  plain s = true →
  fieldsOf s =
    if Csv.isRecordEmpty (JS.split "," s) then Throw TypeError
    else Ok (JS.split "," s).
Proof.
  intros Hp. unfold fieldsOf. rewrite (csvparse_plain s Hp). by case_match.
Qed.

(** A line whose pieces between commas are all empty is made of commas. *)
Lemma all_empty_commas s c :
  Forall (λ f, f = "") (JS.split "," s) → occurs c s = true → c = ","%char.
Proof.
  induction s as [|c' s IH]; simpl; [done|].
  destruct (Ascii.eqb c' ",") eqn:Hc.
  - apply Ascii.eqb_eq in Hc as ->.
    intros [_ Hs]%Forall_cons [Heq|Ho]%orb_true_iff; [|by apply IH].
    by apply Ascii.eqb_eq in Heq.
  - destruct (split_cons "," s) as (p & ps & ->). by intros [[=] _]%Forall_cons.
Qed.

Lemma all_empty_plain s : Forall (λ f, f = "") (JS.split "," s) → plain s = true.
Proof.
  intros Hs. unfold plain.
  assert (∀ c, c ≠ ","%char → occurs c s = false) as Hno.
  { intros c Hc. destruct (occurs c s) eqn:Ho; [|done].
    by apply (all_empty_commas _ _ Hs) in Ho. }
  by rewrite !Hno.
Qed.

Lemma isRecordEmpty_all_empty l : Forall (λ f, f = "") l → Csv.isRecordEmpty l = true.
Proof. induction 1 as [|f l -> _ IH]; simpl; [done|]. by rewrite IH. Qed.

(** ** The loop over the tokens *)

Lemma parseFields_app tag l1 l2 :
  parseFields tag (l1 ++ l2) = parseFields tag l1 ≫= λ tag', parseFields tag' l2.
Proof.
  revert tag. induction l1 as [|f l1 IH]; intros tag; simpl; [done|].
  destruct (parseField tag f); simpl; [apply IH|done].
Qed.

(** A token has a key exactly when it has an equals sign. *)
Lemma split_limit_no_eq f : occurs "=" f = false → JS.split_limit "=" 2 f = [f].
Proof. intros H. unfold JS.split_limit. by rewrite split_no_sep. Qed.

Lemma split_two sep s :
  occurs sep s = true → ∃ p0 p1 ps, JS.split sep s = p0 :: p1 :: ps.
Proof.
  induction s as [|c s IH]; simpl; [done|].
  destruct (Ascii.eqb c sep); simpl.
  - intros _. destruct (split_cons sep s) as (p & ps & ->). eauto.
  - intros (p0 & p1 & ps & ->)%IH. eauto.
Qed.

Lemma fieldKey_None f : fieldKey f = None ↔ occurs "=" f = false.
Proof.
  unfold fieldKey. split.
  - intros H. destruct (occurs "=" f) eqn:Ho; [|done].
    apply split_two in Ho as (p0 & p1 & ps & Hs).
    unfold JS.split_limit in H. by rewrite Hs in H.
  - intros H. by rewrite split_limit_no_eq.
Qed.

(** A positional token overwrites the attribute [value], whatever it was. *)
Lemma parseField_positional tag f :
  occurs "=" f = false →
  parseField tag f =
    Ok {| type := type tag; attrs := <["value" := JS.trim f]> (attrs tag) |}.
Proof. intros H. unfold parseField. by rewrite split_limit_no_eq. Qed.

(** Only an unknown type makes the loop fail. *)
Lemma parseField_not_type tag f :
  fieldKey f ≠ Some "type" →
  ∃ tag', parseField tag f = Ok tag' ∧ type tag' = type tag.
Proof.
  unfold fieldKey, parseField, JS.split_limit.
  destruct (split_cons "=" f) as (p & ps & ->). intros Hk.
  destruct ps as [|p1 ps]; cbn [firstn] in *; [by eauto|].
  destruct (String.eqb_spec (JS.toLowerCase (JS.trim p)) "type") as [Ht|Ht].
  - by rewrite Ht in Hk.
  - eauto.
Qed.

Lemma parseFields_no_type fields : ∀ tag,
  Forall (λ f, fieldKey f ≠ Some "type") fields →
  ∃ tag', parseFields tag fields = Ok tag' ∧ type tag' = type tag.
Proof.
  induction fields as [|f fields IH]; intros tag Hall; simpl; [by eauto|].
  apply Forall_cons in Hall as [Hf Hall].
  destruct (parseField_not_type tag f Hf) as (tag1 & -> & <-). simpl.
  by apply IH.
Qed.

(** A token with a key other than [value] leaves that attribute alone. *)
Lemma parseField_keeps_value tag f tag' k :
  fieldKey f = Some k → k ≠ "value" → parseField tag f = Ok tag' →
  attrs tag' !! "value" = attrs tag !! "value".
Proof.
  unfold fieldKey, parseField, JS.split_limit.
  destruct (split_cons "=" f) as (p & ps & ->).
  destruct ps as [|p1 ps]; cbn [firstn]; [done|].
  intros [= <-] Hk. case_match.
  - case_match; [|done]. by intros [= <-].
  - intros [= <-]. simpl. unfold setProperty. case_match; [done|].
    by rewrite lookup_insert_ne.
Qed.

Lemma parseFields_keep_value fields : ∀ tag tag',
  Forall (λ f, ∃ k, fieldKey f = Some k ∧ k ≠ "value") fields →
  parseFields tag fields = Ok tag' →
  attrs tag' !! "value" = attrs tag !! "value".
Proof.
  induction fields as [|f fields IH]; intros tag tag' Hall; simpl.
  - by intros [= <-].
  - apply Forall_cons in Hall as [(k & Hk & Hne) Hall].
    intros (tag1 & H1 & H2)%bind_Ok.
    rewrite (IH _ _ Hall H2). by eapply parseField_keeps_value.
Qed.

(** ** The order of Numbers *)

Ltac float_order :=
  unfold JS.lt, JS.eq, SFltb, SFeqb, SFcompare;
  repeat match goal with
  | x : spec_float |- _ => destruct x as [[]|[]| |[] ? ?]
  end;
  try done;
  change (Pos.compare_cont Eq) with Pos.compare;
  repeat match goal with
  | |- context [Z.compare ?a ?b] => destruct (Z.compare_spec a b)
  | |- context [Pos.compare ?a ?b] => destruct (Pos.compare_spec a b)
  end;
  simpl; try done; try lia.

Lemma lt_asym x y : JS.lt x y = true → JS.lt y x = false.
Proof. float_order. Qed.

Lemma lt_negatively_transitive x y z :
  JS.isNaN y = false →
  JS.lt x y = false → JS.lt y z = false → JS.lt x z = false.
Proof. float_order. Qed.

Lemma eq_of_not_lt x y :
  JS.isNaN x = false → JS.isNaN y = false →
  JS.lt x y = false → JS.lt y x = false → JS.eq x y = true.
Proof. float_order. Qed.

(** ** The insertion sort *)

Section SortFacts.
Context {A : Type} (comparefn : A → A → Z).

Lemma insertSorted_Permutation x placed :
  insertSorted comparefn x placed ≡ₚ x :: placed.
Proof.
  induction placed as [|y placed IH]; simpl; [done|].
  case_match; [|done]. rewrite IH. apply Permutation_swap.
Qed.

Lemma sort_Permutation l : sort comparefn l ≡ₚ l.
Proof.
  unfold sort. rewrite reverse_Permutation.
  assert (∀ placed, foldl (λ placed x, insertSorted comparefn x placed) placed l
                    ≡ₚ l ++ placed) as H.
  { induction l as [|x l IH]; intros placed; simpl; [done|].
    rewrite IH, insertSorted_Permutation. by rewrite Permutation_middle. }
  rewrite H. by rewrite app_nil_r.
Qed.

(** Sorting commutes with a map that the comparison function sees
    through. *)
Lemma insertSorted_fmap {B} (f : B → A) x placed :
  insertSorted comparefn (f x) (f <$> placed) =
  f <$> insertSorted (λ a b, comparefn (f a) (f b)) x placed.
Proof.
  induction placed as [|y placed IH]; csimpl; [done|].
  case_match; csimpl; [by rewrite IH|done].
Qed.

Lemma sort_fmap {B} (f : B → A) l :
  sort comparefn (f <$> l) = f <$> sort (λ a b, comparefn (f a) (f b)) l.
Proof.
  unfold sort. rewrite fmap_reverse. f_equal.
  change (@nil A) with (f <$> @nil B). generalize (@nil B).
  induction l as [|x l IH]; intros placed; csimpl; [done|].
  by rewrite insertSorted_fmap, IH.
Qed.

End SortFacts.

Section Stable.
Context {A : Type} (comparefn : A → A → Z) (P : A → Prop).
#[local] Abbreviation after := (after comparefn).
#[local] Abbreviation before := (before comparefn).
#[local] Abbreviation compareSnd := (compareSnd comparefn).
Hypothesis after_asym : ∀ x y, P x → P y → after x y → ¬ after y x.
Hypothesis after_ntrans :
  ∀ x y z, P x → P y → P z → ¬ after x y → ¬ after y z → ¬ after x z.

Lemma insertSorted_before n x placed :
  P x → Forall (λ q, P q.2 ∧ q.1 < n) placed →
  StronglySorted (flip before) placed →
  StronglySorted (flip before) (insertSorted compareSnd (n, x) placed).
Proof.
  intros Hx. induction placed as [|y placed IH]; simpl.
  - intros _ _. repeat constructor.
  - intros [[Hy Hlt] Hall]%Forall_cons [Hfa Hss]%StronglySorted_cons.
    unfold compareSnd at 1. simpl.
    destruct (0 <? comparefn y.2 x)%Z eqn:Hc.
    + apply StronglySorted_cons. split; [|by apply IH].
      rewrite insertSorted_Permutation. apply Forall_cons. split; [|done].
      split; simpl; [|by left]. by apply after_asym.
    + apply StronglySorted_cons. split; [|by apply StronglySorted_cons].
      assert (¬ after y.2 x) as Hyx by (unfold after; by rewrite Hc).
      apply Forall_cons. split.
      * split; simpl; [done|by right].
      * rewrite Forall_forall in Hfa, Hall. apply Forall_forall. intros q Hq.
        destruct (Hall q Hq) as [HPq Hqn]. destruct (Hfa q Hq) as [Hqy _].
        split; simpl; [|by right]. by apply (after_ntrans _ y.2).
Qed.

Lemma foldl_insertSorted_before l : ∀ n placed,
  Forall P l → Forall (λ q, P q.2 ∧ q.1 < n) placed →
  StronglySorted (flip before) placed →
  StronglySorted (flip before)
    (foldl (λ placed p, insertSorted compareSnd p placed) placed (zip (seq n (length l)) l)).
Proof.
  induction l as [|x l IH]; intros n placed Hl Hall Hss; simpl; [done|].
  apply Forall_cons in Hl as [Hx Hl].
  apply IH; [done| |by apply insertSorted_before].
  rewrite insertSorted_Permutation. apply Forall_cons. split; [simpl; split; [done|lia]|].
  eapply Forall_impl; [done|]. intros q [? ?]. split; [done|lia].
Qed.

Lemma StronglySorted_reverse (R : relation (nat * A)) l :
  StronglySorted (flip R) l → StronglySorted R (reverse l).
Proof.
  induction 1 as [|x l Hss IH Hall]; [constructor|]. rewrite reverse_cons.
  apply StronglySorted_app_2; [|done|repeat constructor].
  intros x1 x2 Hx1 ->%list_elem_of_singleton.
  rewrite elem_of_reverse in Hx1. rewrite Forall_forall in Hall. by apply Hall.
Qed.

(** On elements that the comparison function orders consistently, the
    sort puts the indexed input in the order [before]. *)
Lemma sort_before l :
  Forall P l →
  StronglySorted before (sort compareSnd (zip (seq 0 (length l)) l)).
Proof.
  intros Hl. unfold sort. apply StronglySorted_reverse.
  apply foldl_insertSorted_before; [done|constructor|constructor].
Qed.

(** The order determines the result: every stable sort agrees with the
    model on elements that the comparison function orders consistently. *)
Lemma sort_before_unique l sorted :
  Forall P l →
  sorted ≡ₚ zip (seq 0 (length l)) l →
  StronglySorted before sorted →
  sorted = sort compareSnd (zip (seq 0 (length l)) l).
Proof.
  intros Hl Hperm Hss.
  apply (StronglySorted_unique_strong before); [|done|by apply sort_before|].
  - intros p q _ _ [Hnpq [Hqp|Hlt]] [Hnqp [Hpq|Hgt]];
      [by destruct Hnqp..|by destruct Hnpq|lia].
  - by rewrite Hperm, sort_Permutation.
Qed.

End Stable.

(** * The parser on sample lines *)

Example Parse_schedule :
  ∃ tag, Parse "type=schedule" = Ok tag ∧ type tag = Some Schedule ∧
         attrs tag !! "pattern" = Some "nightly" ∧
         attrs tag !! "enable" = Some "true" ∧
         attrs tag !! "priority" = Some "1000".
Proof.
  eexists. split; [vm_compute; reflexivity|]. repeat split; vm_compute; reflexivity.
Qed.

Example Parse_semver :
  Parse "type=semver" = Throw (Error "Missing pattern attribute for type=semver") ∧
  ∃ tag, Parse "type=semver,pattern={{version}}" = Ok tag ∧
         attrs tag !! "value" = Some "".
Proof.
  split; [vm_compute; reflexivity|].
  eexists. split; [vm_compute; reflexivity|]. vm_compute. reflexivity.
Qed.

Example Parse_match :
  Parse "type=match,pattern=x,group=abc"
    = Throw (Error "Invalid match group for type=match,pattern=x,group=abc") ∧
  ∃ tag, Parse "type=match,pattern=x" = Ok tag ∧
         attrs tag !! "group" = Some "0" ∧ attrs tag !! "value" = Some "".
Proof.
  split; [vm_compute; reflexivity|].
  eexists. split; [vm_compute; reflexivity|]. split; vm_compute; reflexivity.
Qed.

Example Parse_sha :
  Parse "type=sha,format=huge" = Throw (Error "Invalid format for type=sha,format=huge") ∧
  ∃ tag, Parse "type=sha" = Ok tag ∧
         attrs tag !! "prefix" = Some "sha-" ∧ attrs tag !! "format" = Some "short".
Proof.
  split; [vm_compute; reflexivity|].
  eexists. split; [vm_compute; reflexivity|]. split; vm_compute; reflexivity.
Qed.

Example Parse_unknown_type :
  Parse "type=Raw,value=x" = Throw (Error "Unknown tag type attribute: Raw").
Proof. vm_compute. reflexivity. Qed.

(** A comma inside quotes does not separate tokens. *)
Example Parse_quoted_comma :
  ∃ tag, Parse ("type=raw," +:+ String Csv.dquote "value=a,b" +:+ String Csv.dquote "")
           = Ok tag ∧
         attrs tag !! "value" = Some "a,b".
Proof.
  eexists. split; [vm_compute; reflexivity|]. vm_compute. reflexivity.
Qed.

(** * The claims *)

(** ** The split of a token *)

(** C1. The split of a token keeps two pieces and drops the rest: on the
    token [value=a=b] the value stored is [a], the text between the first
    and the second equals sign, and not [a=b], the whole remainder after
    the first equals sign. *)
Theorem Parse_drops_after_second_equals :
  ∃ tag, Parse "type=raw,value=a=b" = Ok tag ∧
         attrs tag !! "value" = Some "a" ∧
         attrs tag !! "value" ≠ Some "a=b".
Proof.
  eexists. split; [vm_compute; reflexivity|].
  split; [vm_compute; reflexivity|]. by vm_compute.
Qed.

(** ** The priority of a rule *)


Lemma DefaultPriorities_numeric t : JS.isNaN (JS.Number (DefaultPriorities t)) = false.
Proof. by destruct t; vm_compute. Qed.

(** ** The set builder *)

(** C5. [Transform] of the empty list returns four rules, the results of
    [Parse] on the four built-in lines: the schedule rule, of priority 1000,
    first, then the three ref rules, of priority 600, in the order branch,
    tag, pr. *)
Theorem Transform_empty :
  ∃ schedule branch tag pr,
    Parse "type=schedule" = Ok schedule ∧
    Parse "type=ref,event=branch" = Ok branch ∧
    Parse "type=ref,event=tag" = Ok tag ∧
    Parse "type=ref,event=pr" = Ok pr ∧
    Transform [] = Ok [schedule; branch; tag; pr] ∧
    attrs schedule !! "priority" = Some "1000" ∧
    attrs branch !! "priority" = Some "600" ∧
    attrs tag !! "priority" = Some "600" ∧
    attrs pr !! "priority" = Some "600".
Proof.
  do 4 eexists.
  do 4 (split; [vm_compute; reflexivity|]).
  split; [vm_compute; reflexivity|].
  repeat split; vm_compute; reflexivity.
Qed.

Lemma parseAll_first_failure pre line post e :
  Forall (λ l, ∃ t, Parse l = Ok t) pre → Parse line = Throw e →
  parseAll (pre ++ line :: post) = Throw e.
Proof.
  intros Hpre Hline. induction Hpre as [|l pre [t Hl] _ IH]; simpl.
  - by rewrite Hline.
  - by rewrite Hl, IH.
Qed.

(** C6. When a line of the input fails in [Parse] and the lines before it
    do not, [Transform] fails with the error of that line: no list of rules
    is returned, whatever the lines after it are. *)
Theorem Transform_first_failure pre line post e :
  Forall (λ l, ∃ t, Parse l = Ok t) pre → Parse line = Throw e →
  Transform (pre ++ line :: post) = Throw e.
Proof.
  intros Hpre Hline. unfold Transform.
  replace (Nat.eqb (length (pre ++ line :: post)) 0) with false.
  - by rewrite (parseAll_first_failure _ _ _ _ Hpre Hline).
  - symmetry. apply Nat.eqb_neq. rewrite length_app. simpl. lia.
Qed.

Lemma Transform_first_failure_witness :
  Transform (["foo"; "type=sha"] ++ "type=ref" :: ["bar"; "type=semver"]) =
  Throw (Error "Missing event attribute for type=ref").
Proof.
  apply Transform_first_failure.
  - repeat constructor; eexists; vm_compute; reflexivity.
  - vm_compute. reflexivity.
Defined.

(** ** Lines without token *)

(** C10. On the empty string, and on every line whose fields between
    commas are all empty, the tokenizer returns no record and [Parse] fails
    with the type error of the loop over an undefined first record, which
    is none of the errors that [Parse] throws itself. *)
Theorem Parse_no_record s :
  Forall (λ f, f = "") (JS.split "," s) →
  Csv.csvparse s = Ok [] ∧ Parse s = Throw TypeError.
Proof.
  intros Hs. pose proof (all_empty_plain s Hs) as Hp.
  pose proof (isRecordEmpty_all_empty _ Hs) as He.
  split.
  - by rewrite (csvparse_plain s Hp), He.
  - unfold Parse, readTag. by rewrite (fieldsOf_plain s Hp), He.
Qed.

Lemma Parse_no_record_witness :
  (Csv.csvparse "" = Ok [] ∧ Parse "" = Throw TypeError) ∧
  (Csv.csvparse ",,," = Ok [] ∧ Parse ",,," = Throw TypeError).
Proof.
  split.
  - apply (Parse_no_record ""). vm_compute. repeat constructor.
  - apply (Parse_no_record ",,,"). vm_compute. repeat constructor.
Defined.

(** ** What [Parse] does after the tokens are read *)

Lemma Parse_after_readTag s tag0 :
  readTag s = Ok tag0 →
  Parse s = checkType s (default Raw (type tag0)) (attrs tag0)
            ≫= finish (default Raw (type tag0)).
Proof. intros H. unfold Parse. by rewrite H. Qed.

Lemma finish_enable_lookup t a :
  setDefault "priority" (DefaultPriorities t) (setDefault "enable" "true" a) !! "enable"
  = Some (default "true" (a !! "enable")).
Proof. rewrite setDefault_ne by done. rewrite lookup_setDefault. by case_decide. Qed.

(** The last step fails exactly on an [enable] other than true and false. *)
Lemma finish_valid t a :
  a !! "enable" = None ∨ a !! "enable" = Some "true" ∨ a !! "enable" = Some "false" →
  finish t a =
    Ok {| type := Some t;
          attrs := setDefault "priority" (DefaultPriorities t)
                     (setDefault "enable" "true" a) |}.
Proof.
  intros He. unfold finish. rewrite finish_enable_lookup.
  by destruct He as [-> | [-> | ->]].
Qed.

Lemma finish_invalid t a v :
  a !! "enable" = Some v → v ≠ "true" → v ≠ "false" →
  finish t a = Throw (Error ("Invalid value for enable attribute: " +:+ v)).
Proof.
  intros He Ht Hf. unfold finish. rewrite finish_enable_lookup, He. simpl.
  apply String.eqb_neq in Ht, Hf. by rewrite Ht, Hf.
Qed.

Lemma finish_preserves t a tag k v :
  finish t a = Ok tag → a !! k = Some v → attrs tag !! k = Some v.
Proof.
  intros (_ & -> & _)%finish_Ok Hk. by do 2 apply setDefault_preserves.
Qed.

(** The attributes that the tokens set are in the rule as they were set. *)
Lemma Parse_preserves s tag0 tag k v :
  readTag s = Ok tag0 → Parse s = Ok tag →
  attrs tag0 !! k = Some v → attrs tag !! k = Some v.
Proof.
  intros H0 HP Hk. rewrite (Parse_after_readTag _ _ H0) in HP.
  apply bind_Ok in HP as (a & Hc & Hf).
  eapply finish_preserves; [done|]. by eapply checkType_preserves.
Qed.

(** ** The trailing comma *)

(** C3 as stated fails: the line [foo] gives the value foo, and the line
    with a trailing comma gives the empty value. *)
Lemma trailing_comma_changes_rule : ¬ (∀ s, Parse (s +:+ ",") = Parse s).
Proof.
  intros H. specialize (H "foo").
  apply (f_equal (λ r, match r with
                       | Ok tag => attrs tag !! "value"
                       | Throw _ => None
                       end)) in H.
  by vm_compute in H.
Qed.

Lemma isRecordEmpty_app l1 l2 :
  Csv.isRecordEmpty (l1 ++ l2) = Csv.isRecordEmpty l1 && Csv.isRecordEmpty l2.
Proof. apply forallb_app. Qed.

Lemma readTag_value_of_last s fields :
  fieldsOf s = Ok (fields ++ [""]) →
  ∀ tag0, readTag s = Ok tag0 → attrs tag0 !! "value" = Some "".
Proof.
  intros Hf tag0. unfold readTag. rewrite Hf. simpl. rewrite parseFields_app.
  intros (tag1 & _ & H2)%bind_Ok. simpl in H2.
  injection H2 as <-. simpl. by rewrite lookup_insert_eq.
Qed.

(** C3, amended.  Empty fields are tokens like the others: the tokenizer
    only drops a record all of whose fields are blank.  On a line without
    quote and line break that has a field that is not blank, a trailing
    comma adds one empty token after the tokens of the line, and when
    [Parse] succeeds on the line with the trailing comma the attribute
    [value] of the rule is the empty string. *)
Theorem trailing_comma_token s :
  plain s = true → Csv.isRecordEmpty (JS.split "," s) = false →
  fieldsOf s = Ok (JS.split "," s) ∧
  fieldsOf (s +:+ ",") = Ok (JS.split "," s ++ [""]) ∧
  ∀ tag, Parse (s +:+ ",") = Ok tag → attrs tag !! "value" = Some "".
Proof.
  intros Hp Hne.
  assert (fieldsOf (s +:+ ",") = Ok (JS.split "," s ++ [""])) as Hf.
  { rewrite (fieldsOf_plain _ (plain_snoc_comma s Hp)), split_snoc_sep.
    by rewrite isRecordEmpty_app, Hne. }
  split_and!; [|done|].
  - by rewrite (fieldsOf_plain s Hp), Hne.
  - intros tag HP. pose proof HP as (tag0 & a & H0 & _)%Parse_Ok.
    eapply Parse_preserves; [done..|]. by eapply readTag_value_of_last.
Qed.

Lemma trailing_comma_token_witness :
  fieldsOf "type=semver,pattern=x,foo" = Ok ["type=semver"; "pattern=x"; "foo"] ∧
  fieldsOf "type=semver,pattern=x,foo," = Ok ["type=semver"; "pattern=x"; "foo"; ""] ∧
  ∃ tag, Parse "type=semver,pattern=x,foo," = Ok tag ∧ attrs tag !! "value" = Some "".
Proof.
  destruct (trailing_comma_token "type=semver,pattern=x,foo") as (H1 & H2 & H3);
    [vm_compute; reflexivity..|].
  split_and!; [exact H1|exact H2|].
  eexists. split; [vm_compute; reflexivity|]. apply H3. vm_compute. reflexivity.
Defined.

(** ** The attribute [enable] *)

(** C7 as stated fails: on [type=raw,enable=maybe] the error is the one of
    the missing value, which the switch over the type throws first. *)
Lemma enable_error_not_first :
  ¬ (∀ s tag0 v,
       readTag s = Ok tag0 → attrs tag0 !! "enable" = Some v →
       v ≠ "true" → v ≠ "false" →
       Parse s = Throw (Error ("Invalid value for enable attribute: " +:+ v))).
Proof.
  intros H.
  specialize (H "type=raw,enable=maybe"
                {| type := Some Raw; attrs := <["enable" := "maybe"]> ∅ |} "maybe").
  assert (Parse "type=raw,enable=maybe" =
          Throw (Error "Missing value attribute for type=raw,enable=maybe")) as HP.
  { vm_compute. reflexivity. }
  assert (Throw (Error "Missing value attribute for type=raw,enable=maybe")
          = @Throw Tag (Error "Invalid value for enable attribute: maybe")) as Habs.
  { rewrite <-HP. apply H; [vm_compute; reflexivity|done..]. }
  by vm_compute in Habs.
Qed.

(** C7, amended.  A rule returned by [Parse] has the attribute [enable],
    equal to true or to false.  When the line supplies no [enable], the rule
    has true.  When the line supplies another value than these two, [Parse]
    fails, and the error is the one of the invalid [enable] provided that
    the checks of the type of the rule, which come first, pass. *)
Theorem enable_checked s tag0 :
  readTag s = Ok tag0 →
  (∀ tag, Parse s = Ok tag →
     attrs tag !! "enable" = Some "true" ∨ attrs tag !! "enable" = Some "false") ∧
  (attrs tag0 !! "enable" = None →
     ∀ tag, Parse s = Ok tag → attrs tag !! "enable" = Some "true") ∧
  (∀ v, attrs tag0 !! "enable" = Some v → v ≠ "true" → v ≠ "false" →
     (∀ tag, Parse s ≠ Ok tag) ∧
     (∀ a, checkType s (default Raw (type tag0)) (attrs tag0) = Ok a →
        Parse s = Throw (Error ("Invalid value for enable attribute: " +:+ v)))).
Proof.
  intros H0. rewrite (Parse_after_readTag _ _ H0). split_and!.
  - intros tag (a & _ & Hf)%bind_Ok. by apply finish_Ok in Hf as (_ & _ & ?).
  - intros He tag (a & Hc & Hf)%bind_Ok.
    rewrite finish_valid in Hf.
    + injection Hf as <-. simpl. rewrite finish_enable_lookup.
      by rewrite (checkType_enable_priority _ _ _ _ "enable" Hc), He by auto.
    + left. by rewrite (checkType_enable_priority _ _ _ _ "enable" Hc) by auto.
  - intros v He Ht Hf.
    assert (∀ a, checkType s (default Raw (type tag0)) (attrs tag0) = Ok a →
                 finish (default Raw (type tag0)) a =
                 Throw (Error ("Invalid value for enable attribute: " +:+ v))) as Hthrow.
    { intros a Hc. apply finish_invalid; [|done..].
      by rewrite (checkType_enable_priority _ _ _ _ "enable" Hc) by auto. }
    split.
    + intros tag (a & Hc & Hfin)%bind_Ok. by rewrite (Hthrow a Hc) in Hfin.
    + intros a Hc. rewrite Hc. simpl. by apply Hthrow.
Qed.

Lemma enable_checked_witness :
  (∃ tag, Parse "foo" = Ok tag ∧ attrs tag !! "enable" = Some "true") ∧
  Parse "foo,enable=maybe" = Throw (Error "Invalid value for enable attribute: maybe").
Proof.
  split.
  - eexists. split; [vm_compute; reflexivity|].
    eapply (proj1 (proj2 (enable_checked "foo"
              {| type := None; attrs := <["value" := "foo"]> ∅ |} _))).
    + vm_compute. reflexivity.
    + vm_compute. reflexivity.
  - eapply (proj2 (proj2 (proj2 (enable_checked "foo,enable=maybe"
              {| type := None;
                 attrs := <["enable" := "maybe"]> (<["value" := "foo"]> ∅) |} _))
              "maybe" _ _ _)).
    vm_compute. reflexivity.
  Unshelve.
  all: try (vm_compute; reflexivity); done.
Defined.

(** ** Rules of type ref *)

Lemma includes_elem_of l x : JS.includes l x = true ↔ x ∈ l.
Proof.
  unfold JS.includes. rewrite existsb_exists. setoid_rewrite <-list_elem_of_In.
  split.
  - by intros (y & Hy & ->%String.eqb_eq).
  - intros Hx. exists x. by rewrite String.eqb_refl.
Qed.

Lemma checkType_Ref s a :
  checkType s Ref a =
    match a !! "event" with
    | None => Throw (Error ("Missing event attribute for " +:+ s))
    | Some event =>
        if negb (JS.includes RefEvent.values event)
        then Throw (Error ("Invalid event for " +:+ s))
        else Ok (if String.eqb event "pr" && negb (hasOwnProperty a "prefix")
                 then <["prefix" := "pr-"]> a else a)
    end.
Proof. simpl. repeat case_match; done. Qed.

(** C9 as stated fails: [type=ref,event=tag,enable=x] has a valid event
    and [Parse] fails on it, with the error of the invalid [enable]. *)
Lemma ref_valid_event_may_fail :
  ¬ (∀ s tag0 ev,
       readTag s = Ok tag0 → type tag0 = Some Ref →
       attrs tag0 !! "event" = Some ev → ev ∈ RefEvent.values →
       ∃ tag, Parse s = Ok tag).
Proof.
  intros H.
  destruct (H "type=ref,event=tag,enable=x"
              {| type := Some Ref;
                 attrs := <["enable" := "x"]> (<["event" := "tag"]> ∅) |} "tag")
    as [tag HP].
  - vm_compute. reflexivity.
  - done.
  - done.
  - apply includes_elem_of. vm_compute. reflexivity.
  - by vm_compute in HP.
Qed.

(** The three errors that a line of type ref can meet differ from one
    another, whatever the line and the value of [enable]. *)
Lemma ref_errors_distinct s v :
  "Invalid value for enable attribute: " +:+ v ≠ "Missing event attribute for " +:+ s ∧
  "Invalid value for enable attribute: " +:+ v ≠ "Invalid event for " +:+ s ∧
  "Invalid event for " +:+ s ≠ "Missing event attribute for " +:+ s.
Proof. split_and!; intros [=]. Qed.

(** C9, amended.  For a line whose type is ref, [Parse] fails with the
    error of the missing event exactly when the line has no [event], and
    with the error of the invalid event exactly when it has one that is not
    branch, tag or pr.  Otherwise the checks of the type pass, and [Parse]
    succeeds if [enable] is absent, true or false; the rule has the prefix
    pr- when the event is pr and the line supplies no prefix. *)
Theorem ref_event s tag0 :
  readTag s = Ok tag0 → type tag0 = Some Ref →
  (Parse s = Throw (Error ("Missing event attribute for " +:+ s))
   ↔ attrs tag0 !! "event" = None) ∧
  (Parse s = Throw (Error ("Invalid event for " +:+ s))
   ↔ ∃ ev, attrs tag0 !! "event" = Some ev ∧ ev ∉ RefEvent.values) ∧
  (∀ ev, attrs tag0 !! "event" = Some ev → ev ∈ RefEvent.values →
     attrs tag0 !! "enable" = None ∨ attrs tag0 !! "enable" = Some "true"
       ∨ attrs tag0 !! "enable" = Some "false" →
     ∃ tag, Parse s = Ok tag ∧ type tag = Some Ref ∧
       attrs tag !! "event" = Some ev ∧
       (ev = "pr" → attrs tag0 !! "prefix" = None →
        attrs tag !! "prefix" = Some "pr-")).
Proof.
  intros H0 Ht. rewrite (Parse_after_readTag _ _ H0), Ht. simpl default.
  rewrite checkType_Ref.
  destruct (attrs tag0 !! "event") as [ev|] eqn:Hev; cbn [mbind result_bind].
  2:{ split_and!; [done| |done].
      split; [intros [=]|by intros (? & [=] & _)]. }
  destruct (JS.includes RefEvent.values ev) eqn:Hin; cbn [negb mbind result_bind].
  2:{ assert (ev ∉ RefEvent.values) as Hnotin.
      { rewrite <-includes_elem_of. by rewrite Hin. }
      split_and!.
      - split; [intros [=]|done].
      - split; [by eauto|done].
      - by intros ? [= <-] ?. }
  assert (ev ∈ RefEvent.values) as Hisin by by apply includes_elem_of.
  set (a := if String.eqb ev "pr" && negb (hasOwnProperty (attrs tag0) "prefix")
            then <["prefix" := "pr-"]> (attrs tag0) else attrs tag0).
  assert (a !! "enable" = attrs tag0 !! "enable") as Hen.
  { unfold a. case_match; [|done]. by rewrite lookup_insert_ne. }
  assert (a !! "event" = Some ev) as Hev'.
  { unfold a. case_match; [|done]. by rewrite lookup_insert_ne. }
  assert (∀ e, finish Ref a = Throw (Error e) →
               ∃ v, e = "Invalid value for enable attribute: " +:+ v) as Herr.
  { intros e. unfold finish. case_match; [|done]. intros [= <-]. eauto. }
  split_and!.
  - split; [|done]. intros (v & Hv)%Herr.
    by destruct (ref_errors_distinct s v) as (? & _ & _).
  - split.
    + intros (v & Hv)%Herr. by destruct (ref_errors_distinct s v) as (_ & ? & _).
    + by intros (? & [= <-] & ?).
  - intros ? [= <-] _ Henable. rewrite finish_valid by by rewrite Hen.
    eexists. split_and!; [done..| |]; cbn [attrs].
    + by do 2 apply setDefault_preserves.
    + intros -> Hpre. do 2 apply setDefault_preserves. unfold a.
      rewrite (hasOwnProperty_None _ _ Hpre). simpl. by rewrite lookup_insert_eq.
Qed.

Lemma ref_event_witness :
  Parse "type=ref" = Throw (Error "Missing event attribute for type=ref") ∧
  Parse "type=ref,event=bogus" = Throw (Error "Invalid event for type=ref,event=bogus") ∧
  ∃ tag, Parse "type=ref,event=pr" = Ok tag ∧ type tag = Some Ref ∧
         attrs tag !! "event" = Some "pr" ∧ attrs tag !! "prefix" = Some "pr-".
Proof.
  split_and!.
  - apply (ref_event "type=ref" {| type := Some Ref; attrs := ∅ |});
      [vm_compute; reflexivity|done|done].
  - apply (ref_event "type=ref,event=bogus"
             {| type := Some Ref; attrs := <["event" := "bogus"]> ∅ |});
      [vm_compute; reflexivity|done|].
    exists "bogus". split; [done|]. rewrite <-includes_elem_of. by vm_compute.
  - destruct (ref_event "type=ref,event=pr"
                {| type := Some Ref; attrs := <["event" := "pr"]> ∅ |})
      as (_ & _ & H); [vm_compute; reflexivity|done|].
    destruct (H "pr") as (tag & HP & Ht & He & Hp); [done| |by left|].
    { apply includes_elem_of. vm_compute. reflexivity. }
    exists tag. split_and!; [done..|]. by apply Hp.
Defined.

(** ** Lines without type and positional tokens *)

Lemma readTag_fields s fields tag0 :
  fieldsOf s = Ok fields → readTag s = Ok tag0 → parseFields newTag fields = Ok tag0.
Proof. intros Hf. unfold readTag. by rewrite Hf. Qed.

(** The attribute [value] after a positional token and tokens that do not
    write [value]. *)
Lemma parseFields_last_positional pre t post tag tag0 :
  occurs "=" t = false →
  Forall (λ f, ∃ k, fieldKey f = Some k ∧ k ≠ "value") post →
  parseFields tag (pre ++ t :: post) = Ok tag0 →
  attrs tag0 !! "value" = Some (JS.trim t).
Proof.
  intros Ht Hpost. rewrite parseFields_app.
  intros (tag1 & _ & H2)%bind_Ok. simpl in H2.
  rewrite (parseField_positional _ _ Ht) in H2. simpl in H2.
  rewrite (parseFields_keep_value _ _ _ Hpost H2). simpl.
  by rewrite lookup_insert_eq.
Qed.

(** C8 as stated fails: in [a,b,value=c] the tokens without equals sign
    are a and b, and the value of the rule is neither: it is c. *)
Lemma last_positional_may_lose :
  ¬ (∀ s fields pre t post tag,
       fieldsOf s = Ok fields → fields = pre ++ t :: post →
       Exists (λ f, occurs "=" f = false) pre → occurs "=" t = false →
       Forall (λ f, occurs "=" f = true) post →
       Parse s = Ok tag → attrs tag !! "value" = Some (JS.trim t)).
Proof.
  intros H.
  assert (∃ tag, Parse "a,b,value=c" = Ok tag ∧ attrs tag !! "value" = Some "c")
    as (tag & HP & Hv).
  { eexists. split; [vm_compute; reflexivity|]. vm_compute. reflexivity. }
  specialize (H "a,b,value=c" ["a"; "b"; "value=c"] ["a"] "b" ["value=c"] tag).
  rewrite Hv in H. clear Hv.
  assert (Some "c" = Some (JS.trim "b")) as Habs.
  { apply H; [vm_compute; reflexivity|done| |done| |exact HP].
    - by constructor.
    - repeat constructor. }
  by vm_compute in Habs.
Qed.

(** C8, amended.  A line without type token gives a rule of type raw.  A line of
    type raw without attribute [value] fails with the error of the missing
    value.  A line that is one token without equals sign gives a rule of
    type raw whose [value] is the token, trimmed.  Each token without
    equals sign overwrites [value]: the last of them gives the [value] of
    the rule, when no token with the key [value] follows it. *)
Theorem raw_and_positional s fields :
  fieldsOf s = Ok fields →
  (Forall (λ f, fieldKey f ≠ Some "type") fields →
     ∃ tag0, readTag s = Ok tag0 ∧ type tag0 = None ∧
       ∀ tag, Parse s = Ok tag → type tag = Some Raw) ∧
  (∀ tag0, readTag s = Ok tag0 → default Raw (type tag0) = Raw →
     attrs tag0 !! "value" = None →
     Parse s = Throw (Error ("Missing value attribute for " +:+ s))) ∧
  (∀ t, fields = [t] → occurs "=" t = false →
     ∃ tag, Parse s = Ok tag ∧ type tag = Some Raw ∧
            attrs tag !! "value" = Some (JS.trim t)) ∧
  (∀ pre t post, fields = pre ++ t :: post → occurs "=" t = false →
     Forall (λ f, ∃ k, fieldKey f = Some k ∧ k ≠ "value") post →
     ∀ tag, Parse s = Ok tag → attrs tag !! "value" = Some (JS.trim t)).
Proof.
  intros Hf. split_and!.
  - intros Hno.
    destruct (parseFields_no_type fields newTag Hno) as (tag0 & H0 & Ht0).
    assert (readTag s = Ok tag0) as Hr by (unfold readTag; by rewrite Hf).
    exists tag0. split_and!; [done..|].
    intros tag HP. rewrite (Parse_after_readTag _ _ Hr), Ht0 in HP.
    apply bind_Ok in HP as (a & _ & Hfin). by apply finish_Ok in Hfin as (? & _).
  - intros tag0 Hr Hraw Hv. rewrite (Parse_after_readTag _ _ Hr), Hraw. simpl.
    by rewrite (hasOwnProperty_None _ _ Hv).
  - intros t -> Ht.
    assert (readTag s = Ok {| type := None; attrs := <["value" := JS.trim t]> ∅ |}) as Hr.
    { unfold readTag. rewrite Hf. simpl. by rewrite (parseField_positional _ _ Ht). }
    rewrite (Parse_after_readTag _ _ Hr). simpl.
    rewrite (hasOwnProperty_Some _ _ (JS.trim t)) by by rewrite lookup_insert_eq.
    simpl. rewrite finish_valid by (left; by rewrite lookup_insert_ne).
    eexists. split_and!; [done..|]. simpl.
    do 2 apply setDefault_preserves. by rewrite lookup_insert_eq.
  - intros pre t post -> Ht Hpost tag HP.
    pose proof HP as (tag0 & a & Hr & _)%Parse_Ok.
    eapply Parse_preserves; [done..|].
    eapply parseFields_last_positional; [done..|]. by eapply readTag_fields.
Qed.

Lemma raw_and_positional_witness :
  (∃ tag, Parse "a,enable=false" = Ok tag ∧ type tag = Some Raw) ∧
  Parse "enable=true" = Throw (Error "Missing value attribute for enable=true") ∧
  (∃ tag, Parse " foo " = Ok tag ∧ type tag = Some Raw ∧
          attrs tag !! "value" = Some "foo") ∧
  (∃ tag, Parse "a,b,c,enable=false" = Ok tag ∧ attrs tag !! "value" = Some "c").
Proof.
  split_and!.
  - destruct (raw_and_positional "a,enable=false" ["a"; "enable=false"])
      as (H & _); [vm_compute; reflexivity|].
    destruct H as (tag0 & _ & _ & H).
    { repeat constructor; by vm_compute. }
    eexists. split; [vm_compute; reflexivity|]. apply H. vm_compute. reflexivity.
  - destruct (raw_and_positional "enable=true" ["enable=true"])
      as (_ & H & _); [vm_compute; reflexivity|].
    apply (H {| type := None; attrs := <["enable" := "true"]> ∅ |});
      [vm_compute; reflexivity|done|done].
  - destruct (raw_and_positional " foo " [" foo "])
      as (_ & _ & H & _); [vm_compute; reflexivity|].
    apply (H " foo "); [done|by vm_compute].
  - destruct (raw_and_positional "a,b,c,enable=false" ["a"; "b"; "c"; "enable=false"])
      as (_ & _ & _ & H); [vm_compute; reflexivity|].
    eexists. split; [vm_compute; reflexivity|].
    apply (H ["a"; "b"] "c" ["enable=false"]); [done|by vm_compute| |vm_compute; reflexivity].
    repeat constructor. exists "enable". split; [by vm_compute|done].
Defined.

(** ** The order of the rules *)

Lemma StronglySorted_lookup {A} (R : relation A) l :
  StronglySorted R l →
  ∀ i j x y, i < j → l !! i = Some x → l !! j = Some y → R x y.
Proof.
  induction 1 as [|z l Hss IH Hall]; intros i j x y Hij Hi Hj; [done|].
  destruct j as [|j]; [lia|]. simpl in Hj. destruct i as [|i]; simpl in Hi.
  - injection Hi as ->. rewrite Forall_forall in Hall.
    apply Hall. by eapply list_elem_of_lookup_2.
  - apply (IH i j); [lia|done..].
Qed.

Lemma parseAll_Forall2 lines : ∀ tags,
  parseAll lines = Ok tags → Forall2 (λ line tag, Parse line = Ok tag) lines tags.
Proof.
  induction lines as [|line lines IH]; simpl; intros tags.
  - intros [= <-]. constructor.
  - intros (tag & HP & (tags' & Hall & [= <-])%bind_Ok)%bind_Ok.
    constructor; [done|by apply IH].
Qed.

Lemma after_comparePriority x y :
  after comparePriority x y ↔ JS.lt (priority x) (priority y) = true.
Proof.
  unfold after, comparePriority.
  destruct (JS.lt (priority x) (priority y)); [done|].
  by destruct (JS.lt (priority y) (priority x)).
Qed.

Lemma elem_of_zip_seq {A} (l : list A) i x :
  (i, x) ∈ zip (seq 0 (length l)) l → l !! i = Some x.
Proof.
  intros (k & Hk)%list_elem_of_lookup_1.
  apply lookup_zip_with_Some in Hk as (i' & x' & [= -> ->] & Hs & Hl).
  apply lookup_seq in Hs as [-> _]. done.
Qed.

(** C4 as stated fails: with the priorities 1 and x, the second is NaN,
    which is neither equal to 1, nor less, nor greater: no order of the two
    rules is the order of the claim. *)
Lemma order_fails_without_number :
  ¬ (∀ inputs out,
       Transform inputs = Ok out →
       ∃ origin, Provenance (linesOf inputs) out origin ∧ StableDescending out origin).
Proof.
  intros H.
  assert (∃ ta tb, Transform ["a,priority=1"; "b,priority=x"] = Ok [ta; tb] ∧
                   priority tb = S754_nan) as (ta & tb & HT & Hnan).
  { do 2 eexists. split; [vm_compute; reflexivity|]. vm_compute. reflexivity. }
  destruct (H _ _ HT) as (origin & [_ Hprov] & Hord). clear H HT.
  apply Forall2_length in Hprov as Hlen. clear Hprov.
  destruct origin as [|a [|b [|? ?]]]; simpl in Hlen; try lia.
  destruct (Hord 0 1 ta tb a b) as [[Heq _]|Hlt]; [lia|reflexivity..| |].
  - rewrite Hnan in Heq. unfold JS.eq, SFeqb in Heq.
    by destruct (priority ta).
  - by rewrite Hnan in Hlt.
Qed.

(** C4, amended.  When the priority of every rule is a number, the rules
    that [Transform] returns are in the order of descending priority, and
    rules of equal priority are in the order of the lines that produced
    them. *)
Theorem Transform_stable_descending inputs out :
  Transform inputs = Ok out →
  Forall (λ tag, JS.isNaN (priority tag) = false) out →
  ∃ origin, Provenance (linesOf inputs) out origin ∧ StableDescending out origin.
Proof.
  unfold Transform. fold (linesOf inputs).
  intros (tags & Hparse & [= <-])%bind_Ok Hnum.
  apply parseAll_Forall2 in Hparse.
  set (sorted := sort (compareSnd comparePriority) (zip (seq 0 (length tags)) tags)).
  assert (sort comparePriority tags = sorted.*2) as Hout.
  { unfold sorted. change (compareSnd comparePriority)
      with (λ p q : nat * Tag, comparePriority p.2 q.2).
    rewrite <-(sort_fmap comparePriority snd).
    by rewrite snd_zip by by rewrite length_seq. }
  assert (sorted ≡ₚ zip (seq 0 (length tags)) tags) as Hperm
    by apply sort_Permutation.
  exists (sorted.*1). split; [split|].
  - rewrite Hperm, fst_zip by by rewrite length_seq.
    by rewrite (Forall2_length _ _ _ Hparse).
  - rewrite Hout. apply Forall2_fmap, Forall_Forall2_diag.
    rewrite Hperm. apply Forall_forall. intros [a tag] Hin. simpl.
    apply elem_of_zip_seq in Hin.
    destruct (Forall2_lookup_r _ _ _ _ _ Hparse Hin) as (line & Hline & HP).
    eauto.
  - assert (StronglySorted (before comparePriority) sorted) as Hss.
    { apply (sort_before comparePriority (λ tag, JS.isNaN (priority tag) = false)).
      - intros x y _ _. rewrite !after_comparePriority.
        intros Hlt. by rewrite (lt_asym _ _ Hlt).
      - intros x y z _ Hy _. rewrite !after_comparePriority, !not_true_iff_false.
        by apply lt_negatively_transitive.
      - by rewrite <-(sort_Permutation comparePriority tags). }
    rewrite Hout in Hnum |- *.
    intros i j ti tj a b Hij Hi Hj Ha Hb.
    rewrite list_lookup_fmap in Hi. rewrite list_lookup_fmap in Hj.
    rewrite list_lookup_fmap in Ha. rewrite list_lookup_fmap in Hb.
    destruct (sorted !! i) as [[a' ti']|] eqn:Hsi; [|done].
    destruct (sorted !! j) as [[b' tj']|] eqn:Hsj; [|done].
    simpl in *. simplify_eq.
    destruct (StronglySorted_lookup _ _ Hss i j _ _ Hij Hsi Hsj) as [Hnot Hor].
    simpl in *. rewrite after_comparePriority in Hnot, Hor.
    destruct (JS.lt (priority tj) (priority ti)) eqn:Hlt; [by right|left].
    destruct Hor as [|Hab]; [done|]. split; [|done].
    rewrite Forall_forall in Hnum.
    apply eq_of_not_lt; [| |by apply not_true_is_false|done].
    + apply Hnum, list_elem_of_fmap. exists (a, ti). split; [done|].
      by eapply list_elem_of_lookup_2.
    + apply Hnum, list_elem_of_fmap. exists (b, tj). split; [done|].
      by eapply list_elem_of_lookup_2.
Qed.

Lemma Transform_stable_descending_witness :
  ∃ out,
    Transform ["a,priority=1"; "b,priority=3"; "c,priority=2"; "d,priority=3"] = Ok out ∧
    ∃ origin,
      Provenance
        (linesOf ["a,priority=1"; "b,priority=3"; "c,priority=2"; "d,priority=3"])
        out origin ∧
      StableDescending out origin.
Proof.
  eexists. split; [vm_compute; reflexivity|].
  apply Transform_stable_descending; [vm_compute; reflexivity|].
  repeat (apply Forall_cons; split; [vm_compute; reflexivity|]).
  apply Forall_nil. exact I.
Defined.

(** * Further properties *)

(** * Further properties of [Parse] *)

(** ** The rules that [Parse] returns are complete *)

Lemma hasOwnProperty_true a k : hasOwnProperty a k = true → is_Some (a !! k).
Proof. unfold hasOwnProperty. by intros ?%bool_decide_eq_true. Qed.

Lemma setDefault_is_Some k v (a : gmap string string) : is_Some (setDefault k v a !! k).
Proof. rewrite lookup_setDefault. case_decide; [by eexists|done]. Qed.

Lemma setDefault_keeps_is_Some k v (a : gmap string string) k' :
  is_Some (a !! k') → is_Some (setDefault k v a !! k').
Proof. intros [x Hx]. exists x. by apply setDefault_preserves. Qed.

Lemma includesProperty_elem_of l o :
  JS.includesProperty l o = true ↔ ∃ x, o = Some x ∧ x ∈ l.
Proof.
  destruct o as [x|]; simpl.
  - rewrite includes_elem_of. split; [by eauto|]. by intros (? & [= <-] & ?).
  - split; [done|]. by intros (? & [=] & _).
Qed.

Lemma checkType_Sha s a :
  checkType s Sha a =
    let a' := setDefault "format" "short" (setDefault "prefix" "sha-" a) in
    if negb (JS.includesProperty ShaFormat.values (a' !! "format"))
    then Throw (Error ("Invalid format for " +:+ s))
    else Ok a'.
Proof. reflexivity. Qed.

(** The switch over the type establishes the required attributes. *)
Lemma checkType_required s t a a' :
  checkType s t a = Ok a' → requiredAttrs t a'.
Proof.
  destruct t;
    [simpl|simpl|simpl|simpl|rewrite checkType_Ref|simpl|rewrite checkType_Sha; cbn zeta].
  - intros [= <-]. apply setDefault_is_Some.
  - case_match eqn:Hp; [done|]. intros [= <-].
    apply negb_false_iff, hasOwnProperty_true in Hp.
    split; [by apply setDefault_keeps_is_Some|apply setDefault_is_Some].
  - case_match eqn:Hp; [done|]. case_match eqn:Hg; [done|]. intros [= <-].
    apply negb_false_iff, hasOwnProperty_true in Hp.
    split_and!.
    + by do 2 apply setDefault_keeps_is_Some.
    + apply setDefault_is_Some.
    + destruct (setDefault_is_Some "group" "0" a) as [g Hgl].
      exists g. split; [by apply setDefault_preserves|].
      by rewrite Hgl in Hg.
  - intros [= <-]. apply setDefault_is_Some.
  - destruct (a !! "event") as [ev|] eqn:Hev; [|done].
    case_match eqn:Hin; [done|]. apply negb_false_iff, includes_elem_of in Hin.
    cbn [negb]. case_match eqn:Hpr; intros [= <-]; exists ev.
    + split_and!; [by rewrite lookup_insert_ne|done|].
      intros _. rewrite lookup_insert_eq. by eexists.
    + split_and!; [done..|]. intros ->. simpl in Hpr.
      by apply negb_false_iff, hasOwnProperty_true in Hpr.
  - case_match eqn:Hv; [done|]. intros [= <-].
    by apply negb_false_iff, hasOwnProperty_true in Hv.
  - case_match eqn:Hf; [done|]. intros [= <-].
    apply negb_false_iff, includesProperty_elem_of in Hf as (f & Hf & Hin).
    split; [|by eauto].
    apply setDefault_keeps_is_Some, setDefault_is_Some.
Qed.

(** The required attributes are not lost when keys are added. *)
Lemma requiredAttrs_mono t (a a' : gmap string string) :
  (∀ k v, a !! k = Some v → a' !! k = Some v) →
  requiredAttrs t a → requiredAttrs t a'.
Proof.
  intros Hsub.
  assert (∀ k, is_Some (a !! k) → is_Some (a' !! k)) as Hsome.
  { intros k [v Hv]. exists v. by apply Hsub. }
  destruct t; simpl.
  - apply Hsome.
  - intros [? ?]. split; by apply Hsome.
  - intros (? & ? & g & Hg & ?). split_and!; [by apply Hsome..|].
    exists g. split; [by apply Hsub|done].
  - apply Hsome.
  - intros (ev & Hev & Hin & Hpr). exists ev. split_and!; [by apply Hsub|done|].
    intros ?. by apply Hsome, Hpr.
  - apply Hsome.
  - intros (? & f & Hf & ?). split; [by apply Hsome|].
    exists f. split; [by apply Hsub|done].
Qed.

(** On attributes that have what the type requires, the switch changes
    nothing. *)
Lemma checkType_of_required s t a : requiredAttrs t a → checkType s t a = Ok a.
Proof.
  assert (∀ k v, is_Some (a !! k) → setDefault k v a = a) as Hdef.
  { intros k v [x Hx]. unfold setDefault. by rewrite (hasOwnProperty_Some _ _ x). }
  assert (∀ k, is_Some (a !! k) → hasOwnProperty a k = true) as Hhas.
  { intros k [x Hx]. by eapply hasOwnProperty_Some. }
  destruct t;
    [simpl|simpl|simpl|simpl|rewrite checkType_Ref|simpl|rewrite checkType_Sha; cbn zeta].
  - intros Hp. by rewrite Hdef.
  - intros [Hp Hv]. by rewrite (Hhas _ Hp), Hdef.
  - intros (Hp & Hv & g & Hg & Hnum).
    rewrite (Hhas _ Hp). simpl. rewrite (Hdef "group") by by eexists.
    rewrite Hg. simpl. rewrite Hnum. by rewrite Hdef.
  - intros Hb. by rewrite Hdef.
  - intros (ev & -> & Hin & Hpr). apply includes_elem_of in Hin. rewrite Hin. simpl.
    destruct (String.eqb_spec ev "pr") as [->|]; [|done].
    by rewrite (Hhas _ (Hpr eq_refl)).
  - intros Hv. by rewrite (Hhas _ Hv).
  - intros (Hp & f & Hf & Hin). rewrite (Hdef "prefix") by done.
    rewrite (Hdef "format") by by eexists.
    rewrite Hf. cbn [JS.includesProperty]. apply includes_elem_of in Hin.
    by rewrite Hin.
Qed.

(** What the checks of [Parse] leave behind, shared by the statements
    below. *)
Lemma Parse_required s tag :
  Parse s = Ok tag →
  ∃ t, type tag = Some t ∧ requiredAttrs t (attrs tag) ∧
       is_Some (attrs tag !! "priority") ∧
       (attrs tag !! "enable" = Some "true" ∨ attrs tag !! "enable" = Some "false").
Proof.
  intros (tag0 & a & H0 & Hc & Hf)%Parse_Ok.
  pose proof (finish_Ok _ _ _ Hf) as (Ht & Ha & He).
  eexists. split_and!; [done| | |done].
  - eapply requiredAttrs_mono; [|by eapply checkType_required].
    intros k v Hk. by eapply finish_preserves.
  - rewrite Ha. apply setDefault_is_Some.
Qed.

(** X1. A rule returned by [Parse] has a type and, with [enable] and
    [priority], every attribute that its type requires or defaults: a
    pattern for schedule, semver and match, a value for semver, match and
    raw, a numeric group for match, a branch for edge, an event among
    branch, tag and pr for ref (and a prefix when it is pr), a prefix and a
    format among short and long for sha. *)
Theorem Parse_complete s tag :
  Parse s = Ok tag →
  ∃ t, type tag = Some t ∧ requiredAttrs t (attrs tag) ∧
       is_Some (attrs tag !! "priority") ∧
       (attrs tag !! "enable" = Some "true" ∨ attrs tag !! "enable" = Some "false").
Proof.
  intros (tag0 & a & H0 & Hc & Hf)%Parse_Ok.
  destruct (finish_Ok _ _ _ Hf) as (Ht & Ha & He).
  exists (default Raw (type tag0)). split_and!; [done| | |done].
  - apply (requiredAttrs_mono _ a); [|exact (checkType_required _ _ _ _ Hc)].
    intros k v Hk. exact (finish_preserves _ _ _ _ _ Hf Hk).
  - rewrite Ha. apply setDefault_is_Some.
Qed.

Lemma Parse_complete_witness :
  ∃ tag, Parse "type=match,pattern=v(.*),group=1" = Ok tag ∧
    ∃ t, type tag = Some t ∧ requiredAttrs t (attrs tag) ∧
         is_Some (attrs tag !! "priority") ∧
         (attrs tag !! "enable" = Some "true" ∨ attrs tag !! "enable" = Some "false").
Proof.
  eexists. split; [vm_compute; reflexivity|].
  apply (Parse_complete "type=match,pattern=v(.*),group=1"). vm_compute. reflexivity.
Defined.

(** X2. The defaults and checks of [Parse] are idempotent: on the
    attributes of a rule that [Parse] returned, the switch over the type
    changes nothing (for any line in its messages) and the last step gives
    the same rule again. *)
Theorem Parse_checks_idempotent s tag :
  Parse s = Ok tag →
  ∃ t, type tag = Some t ∧
       (∀ s', checkType s' t (attrs tag) = Ok (attrs tag)) ∧
       finish t (attrs tag) = Ok tag.
Proof.
  intros HP. destruct (Parse_required _ _ HP) as (t & Ht & Hreq & [p Hp] & He).
  exists t. split_and!; [done| |].
  - intros s'. by apply checkType_of_required.
  - rewrite finish_valid by (destruct He; auto).
    unfold setDefault at 2.
    rewrite (hasOwnProperty_Some _ "enable" (if decide (attrs tag !! "enable" = Some "true") then "true" else "false"))
      by (destruct He as [-> | ->]; by case_decide).
    unfold setDefault. rewrite (hasOwnProperty_Some _ _ _ Hp).
    destruct tag; simpl in *. by subst.
Qed.

Lemma Parse_checks_idempotent_witness :
  ∃ tag, Parse "type=sha,format=long,enable=false" = Ok tag ∧
    ∃ t, type tag = Some t ∧
         (∀ s', checkType s' t (attrs tag) = Ok (attrs tag)) ∧
         finish t (attrs tag) = Ok tag.
Proof.
  eexists. split; [vm_compute; reflexivity|].
  apply (Parse_checks_idempotent "type=sha,format=long,enable=false").
  vm_compute. reflexivity.
Defined.

(** ** What [Parse] adds to the attributes of the line *)

Lemma checkType_other s t a a' k :
  checkType s t a = Ok a' → k ∉ defaultKeys → a' !! k = a !! k.
Proof.
  intros Hc Hk. unfold defaultKeys in Hk. rewrite !not_elem_of_cons in Hk.
  destruct Hk as (? & ? & ? & ? & ? & ? & ? & ? & _).
  destruct t; simpl in Hc;
    repeat case_match; simplify_eq;
    rewrite ?lookup_setDefault; repeat case_decide; simplify_eq; try done.
  by rewrite lookup_insert_ne.
Qed.

(** X3. [Parse] never removes nor changes what the tokens of the line set:
    every attribute read from the line is in the rule with the value read,
    a key that is none of the eight default keys is in the rule exactly when
    the line has it, and the type is the one read, or raw when none was. *)
Theorem Parse_adds_only_defaults s tag0 tag :
  readTag s = Ok tag0 → Parse s = Ok tag →
  type tag = Some (default Raw (type tag0)) ∧
  (∀ k v, attrs tag0 !! k = Some v → attrs tag !! k = Some v) ∧
  (∀ k, k ∉ defaultKeys → attrs tag !! k = attrs tag0 !! k).
Proof.
  intros H0 HP. split_and!.
  - rewrite (Parse_after_readTag _ _ H0) in HP.
    apply bind_Ok in HP as (a & _ & Hf). by apply finish_Ok in Hf as (? & _).
  - intros k v. by apply Parse_preserves with s.
  - intros k Hk. rewrite (Parse_after_readTag _ _ H0) in HP.
    apply bind_Ok in HP as (a & Hc & Hf). apply finish_Ok in Hf as (_ & -> & _).
    unfold defaultKeys in Hk. pose proof Hk as Hk'. rewrite !not_elem_of_cons in Hk'.
    destruct Hk' as (? & ? & ? & ? & ? & ? & ? & ? & _).
    rewrite !setDefault_ne by done. by eapply checkType_other.
Qed.

Lemma Parse_adds_only_defaults_witness :
  ∃ tag, Parse "type=edge,Branch=main,Foo = Bar" = Ok tag ∧
         type tag = Some Edge ∧
         attrs tag !! "branch" = Some "main" ∧
         attrs tag !! "foo" = Some "Bar" ∧
         attrs tag !! "bar" = None.
Proof.
  edestruct (Parse_adds_only_defaults "type=edge,Branch=main,Foo = Bar"
              {| type := Some Edge;
                 attrs := <["foo" := "Bar"]> (<["branch" := "main"]> ∅) |})
    as (Ht & Hkeep & Hother).
  { vm_compute. reflexivity. }
  { vm_compute. reflexivity. }
  eexists. split; [vm_compute; reflexivity|].
  split_and!.
  - exact Ht.
  - by apply Hkeep.
  - by apply Hkeep.
  - rewrite (Hother "bar"); [done|]. unfold defaultKeys.
    rewrite !not_elem_of_cons. split_and!; [done..|]. apply not_elem_of_nil.
Defined.

(** ** Keys and values are in normal form *)

Lemma isWhiteSpace_lowerChar c : JS.isWhiteSpace (JS.lowerChar c) = JS.isWhiteSpace c.
Proof. by destruct c as [[] [] [] [] [] [] [] []]. Qed.

Lemma lowerChar_idemp c : JS.lowerChar (JS.lowerChar c) = JS.lowerChar c.
Proof. by destruct c as [[] [] [] [] [] [] [] []]. Qed.

Lemma toLowerCase_idemp s : JS.toLowerCase (JS.toLowerCase s) = JS.toLowerCase s.
Proof. induction s as [|c s IH]; simpl; [done|]. by rewrite lowerChar_idemp, IH. Qed.

Lemma trimStart_toLowerCase s :
  JS.trimStart (JS.toLowerCase s) = JS.toLowerCase (JS.trimStart s).
Proof.
  induction s as [|c s IH]; simpl; [done|]. rewrite isWhiteSpace_lowerChar.
  by destruct (JS.isWhiteSpace c).
Qed.

Lemma trimEnd_toLowerCase s :
  JS.trimEnd (JS.toLowerCase s) = JS.toLowerCase (JS.trimEnd s).
Proof.
  induction s as [|c s IH]; simpl; [done|]. rewrite IH, isWhiteSpace_lowerChar.
  destruct (JS.trimEnd s); simpl; [|done]. by destruct (JS.isWhiteSpace c).
Qed.

Lemma trim_toLowerCase s : JS.trim (JS.toLowerCase s) = JS.toLowerCase (JS.trim s).
Proof. unfold JS.trim. by rewrite trimEnd_toLowerCase, trimStart_toLowerCase. Qed.

Lemma trimStart_idemp s : JS.trimStart (JS.trimStart s) = JS.trimStart s.
Proof.
  induction s as [|c s IH]; simpl; [done|].
  destruct (JS.isWhiteSpace c) eqn:Hc; [done|]. simpl. by rewrite Hc.
Qed.

Lemma trimEnd_idemp s : JS.trimEnd (JS.trimEnd s) = JS.trimEnd s.
Proof.
  induction s as [|c s IH]; simpl; [done|].
  destruct (JS.trimEnd s) as [|c' r] eqn:Hr.
  - destruct (JS.isWhiteSpace c) eqn:Hc; simpl; [done|]. by rewrite Hc.
  - simpl in *. by rewrite IH.
Qed.

(** Removing white space at the start leaves an end without white space
    as it is. *)
Lemma trimEnd_trimStart s :
  JS.trimEnd s = s → JS.trimEnd (JS.trimStart s) = JS.trimStart s.
Proof.
  induction s as [|c s IH]; simpl; [done|].
  destruct (JS.trimEnd s) as [|c' r] eqn:Hr.
  - destruct (JS.isWhiteSpace c) eqn:Hc; [done|].
    intros [= <-]. simpl. by rewrite Hc.
  - intros [= Hs]. destruct (JS.isWhiteSpace c) eqn:Hc.
    + by apply IH.
    + simpl. by rewrite Hr, Hs.
Qed.

Lemma trim_idemp s : JS.trim (JS.trim s) = JS.trim s.
Proof.
  unfold JS.trim.
  rewrite (trimEnd_trimStart (JS.trimEnd s)) by apply trimEnd_idemp.
  apply trimStart_idemp.
Qed.

Lemma normalAttr_token p0 p1 :
  normalAttr (JS.toLowerCase (JS.trim p0)) (JS.trim p1).
Proof.
  split_and!.
  - apply toLowerCase_idemp.
  - by rewrite trim_toLowerCase, trim_idemp.
  - apply trim_idemp.
Qed.

Lemma parseField_normal tag f tag' :
  parseField tag f = Ok tag' →
  map_Forall normalAttr (attrs tag) → map_Forall normalAttr (attrs tag').
Proof.
  unfold parseField. intros Hf Hall.
  destruct (JS.split_limit "=" 2 f) as [|p0 [|p1 ps]]; [done| |].
  - injection Hf as <-. simpl. apply map_Forall_insert_2; [|done].
    split_and!; [done..|apply trim_idemp].
  - case_match.
    + case_match; [|done]. by injection Hf as <-.
    + injection Hf as <-. simpl. unfold setProperty. case_match; [done|].
      apply map_Forall_insert_2; [|done]. apply normalAttr_token.
Qed.

Lemma parseFields_normal fields : ∀ tag tag',
  parseFields tag fields = Ok tag' →
  map_Forall normalAttr (attrs tag) → map_Forall normalAttr (attrs tag').
Proof.
  induction fields as [|f fields IH]; simpl; intros tag tag'.
  - by intros [= <-].
  - intros (tag1 & H1 & H2)%bind_Ok Hall.
    eapply IH; [done|]. by eapply parseField_normal.
Qed.

Lemma setDefault_normal k v a :
  normalAttr k v → map_Forall normalAttr a → map_Forall normalAttr (setDefault k v a).
Proof.
  intros Hkv Hall. unfold setDefault. case_match; [done|].
  by apply map_Forall_insert_2.
Qed.

Lemma checkType_normal s t a a' :
  checkType s t a = Ok a' → map_Forall normalAttr a → map_Forall normalAttr a'.
Proof.
  intros Hc Hall.
  destruct t; simpl in Hc; repeat case_match; simplify_eq;
    repeat (apply setDefault_normal; [done|]); try done.
  by apply map_Forall_insert_2.
Qed.

(** X4. In a rule returned by [Parse], every key is trimmed and in lower
    case and every value is trimmed: trimming or lower-casing them again
    changes nothing. *)
Theorem Parse_normal s tag :
  Parse s = Ok tag →
  ∀ k v, attrs tag !! k = Some v →
    JS.toLowerCase k = k ∧ JS.trim k = k ∧ JS.trim v = v.
Proof.
  intros (tag0 & a & H0 & Hc & Hf)%Parse_Ok.
  apply finish_Ok in Hf as (_ & -> & _).
  assert (map_Forall normalAttr (attrs tag0)) as Hall0.
  { unfold readTag in H0. apply bind_Ok in H0 as (fields & _ & Hp).
    eapply parseFields_normal; [done|]. apply map_Forall_empty. }
  assert (map_Forall normalAttr
            (setDefault "priority" (DefaultPriorities (default Raw (type tag0)))
               (setDefault "enable" "true" a))) as Hall.
  { apply setDefault_normal; [by destruct (default Raw (type tag0))|].
    apply setDefault_normal; [done|]. by eapply checkType_normal. }
  intros k v Hk. by apply (Hall k v).
Qed.

Lemma Parse_normal_witness :
  ∃ tag, Parse "type=raw, VALUE =  Latest  , My Key = x " = Ok tag ∧
    attrs tag !! "value" = Some "Latest" ∧ attrs tag !! "my key" = Some "x" ∧
    ∀ k v, attrs tag !! k = Some v →
      JS.toLowerCase k = k ∧ JS.trim k = k ∧ JS.trim v = v.
Proof.
  eexists. split; [vm_compute; reflexivity|].
  split; [vm_compute; reflexivity|]. split; [vm_compute; reflexivity|].
  apply (Parse_normal "type=raw, VALUE =  Latest  , My Key = x ").
  vm_compute. reflexivity.
Defined.

(** ** Type tokens *)

(** The strings accepted as a type are the seven values of [Type], in
    their exact case. *)
Lemma TypeOfValue_Some v t : TypeOfValue v = Some t ↔ v = TypeValue t.
Proof.
  unfold TypeOfValue, TypeValues. cbn [find TypeValue]. split.
  - repeat (case_match; [intros [= <-]; symmetry; by apply String.eqb_eq|]). done.
  - intros ->. by destruct t.
Qed.

Lemma TypeOfValue_None v : TypeOfValue v = None ↔ ∀ t, v ≠ TypeValue t.
Proof.
  split.
  - intros Hn t Ht. apply TypeOfValue_Some in Ht. by rewrite Hn in Ht.
  - intros Hne. destruct (TypeOfValue v) as [t|] eqn:Ht; [|done].
    apply TypeOfValue_Some in Ht. by destruct (Hne t).
Qed.

Lemma parseField_type tag f :
  fieldKey f = Some "type" →
  parseField tag f =
    match TypeOfValue (tokenValue f) with
    | Some t => Ok {| type := Some t; attrs := attrs tag |}
    | None => Throw (Error ("Unknown tag type attribute: " +:+ tokenValue f))
    end.
Proof.
  unfold fieldKey, parseField, tokenValue.
  destruct (JS.split_limit "=" 2 f) as [|p0 [|p1 ps]]; [done..|].
  intros [= ->]. done.
Qed.

(** X5. The first type token whose value is none of the seven type names
    (in their exact case) ends [Parse] with the error of the unknown type,
    whatever the other tokens of the line are. *)
Theorem unknown_type_rejected s pre f post :
  fieldsOf s = Ok (pre ++ f :: post) →
  (∃ tag1, parseFields newTag pre = Ok tag1) →
  fieldKey f = Some "type" →
  (∀ t, tokenValue f ≠ TypeValue t) →
  Parse s = Throw (Error ("Unknown tag type attribute: " +:+ tokenValue f)).
Proof.
  intros Hf [tag1 Hpre] Hk Hv%TypeOfValue_None.
  unfold Parse, readTag. rewrite Hf. simpl. rewrite parseFields_app, Hpre. simpl.
  by rewrite (parseField_type _ _ Hk), Hv.
Qed.

Lemma unknown_type_rejected_witness :
  Parse "value=x,TYPE=Semver,type=nope,enable=0"
  = Throw (Error "Unknown tag type attribute: Semver").
Proof.
  apply (unknown_type_rejected _ ["value=x"] "TYPE=Semver" ["type=nope"; "enable=0"]).
  - vm_compute. reflexivity.
  - eexists. vm_compute. reflexivity.
  - vm_compute. reflexivity.
  - intros t. by destruct t; vm_compute.
Defined.

Lemma parseField_keeps_type tag f tag' :
  fieldKey f ≠ Some "type" → parseField tag f = Ok tag' → type tag' = type tag.
Proof.
  intros Hk Hf. destruct (parseField_not_type tag f Hk) as (tag1 & H1 & Ht).
  rewrite H1 in Hf. by injection Hf as <-.
Qed.

Lemma parseFields_keep_type fields : ∀ tag tag',
  Forall (λ f, fieldKey f ≠ Some "type") fields →
  parseFields tag fields = Ok tag' → type tag' = type tag.
Proof.
  intros tag tag' Hall Hp.
  destruct (parseFields_no_type fields tag Hall) as (tag1 & H1 & Ht).
  rewrite H1 in Hp. by injection Hp as <-.
Qed.

(** X6. When a line has several type tokens, the last one gives the type
    of the rule. *)
Theorem last_type_wins s pre f post t tag :
  fieldsOf s = Ok (pre ++ f :: post) →
  fieldKey f = Some "type" → tokenValue f = TypeValue t →
  Forall (λ g, fieldKey g ≠ Some "type") post →
  Parse s = Ok tag → type tag = Some t.
Proof.
  intros Hf Hk Hv%TypeOfValue_Some Hpost HP.
  apply Parse_Ok in HP as (tag0 & a & H0 & _ & (-> & _)%finish_Ok).
  unfold readTag in H0. rewrite Hf in H0. simpl in H0.
  rewrite parseFields_app in H0. apply bind_Ok in H0 as (tag1 & _ & H2).
  simpl in H2. rewrite (parseField_type _ _ Hk), Hv in H2. simpl in H2.
  rewrite (parseFields_keep_type _ _ _ Hpost H2). done.
Qed.

Lemma last_type_wins_witness :
  ∃ tag, Parse "type=raw,value=x,type=sha,format=long" = Ok tag ∧ type tag = Some Sha.
Proof.
  eexists. split; [vm_compute; reflexivity|].
  apply (last_type_wins "type=raw,value=x,type=sha,format=long"
           ["type=raw"; "value=x"] "type=sha" ["format=long"] Sha).
  - vm_compute. reflexivity.
  - vm_compute. reflexivity.
  - vm_compute. reflexivity.
  - repeat constructor. by vm_compute.
  - vm_compute. reflexivity.
Defined.

(** ** Tokens that write the same attribute *)

Lemma parseField_written tag f tag' :
  parseField tag f = Ok tag' →
  attrs tag' = match written f with
               | Some k => <[k := tokenValue f]> (attrs tag)
               | None => attrs tag
               end.
Proof.
  unfold parseField, written, tokenValue.
  destruct (JS.split_limit "=" 2 f) as [|p0 [|p1 ps]]; [done| |].
  - by intros [= <-].
  - destruct (String.eqb (JS.toLowerCase (JS.trim p0)) "type"); simpl.
    + case_match; [|done]. by intros [= <-].
    + intros [= <-]. simpl. unfold setProperty. by case_match.
Qed.

Lemma parseFields_keep_attr k fields : ∀ tag tag',
  Forall (λ g, written g ≠ Some k) fields →
  parseFields tag fields = Ok tag' → attrs tag' !! k = attrs tag !! k.
Proof.
  induction fields as [|f fields IH]; simpl; intros tag tag' Hall.
  - by intros [= <-].
  - apply Forall_cons in Hall as [Hf Hall].
    intros (tag1 & H1 & H2)%bind_Ok. rewrite (IH _ _ Hall H2).
    rewrite (parseField_written _ _ _ H1).
    destruct (written f) as [k'|]; [|done].
    rewrite lookup_insert_ne; [done|]. by intros ->.
Qed.

(** X7. When several tokens of a line write the same attribute, by the
    same key in any case or, for [value], by position, the last of them
    gives the attribute of the rule. *)
Theorem last_token_wins s pre f post k tag :
  fieldsOf s = Ok (pre ++ f :: post) →
  written f = Some k →
  Forall (λ g, written g ≠ Some k) post →
  Parse s = Ok tag → attrs tag !! k = Some (tokenValue f).
Proof.
  intros Hf Hw Hpost HP. pose proof HP as (tag0 & a & H0 & _)%Parse_Ok.
  eapply Parse_preserves; [done..|].
  unfold readTag in H0. rewrite Hf in H0. simpl in H0.
  rewrite parseFields_app in H0. apply bind_Ok in H0 as (tag1 & _ & H2).
  simpl in H2. apply bind_Ok in H2 as (tag2 & Hf2 & Hp2).
  rewrite (parseFields_keep_attr _ _ _ _ Hpost Hp2).
  rewrite (parseField_written _ _ _ Hf2), Hw. by rewrite lookup_insert_eq.
Qed.

Lemma last_token_wins_witness :
  ∃ tag, Parse "type=sha,prefix=a,PREFIX = b ,format=long" = Ok tag ∧
         attrs tag !! "prefix" = Some "b".
Proof.
  eexists. split; [vm_compute; reflexivity|].
  apply (last_token_wins "type=sha,prefix=a,PREFIX = b ,format=long"
           ["type=sha"; "prefix=a"] "PREFIX = b " ["format=long"] "prefix").
  - vm_compute. reflexivity.
  - vm_compute. reflexivity.
  - repeat constructor. by vm_compute.
  - vm_compute. reflexivity.
Defined.

(** ** The priority, from the tokens of the line *)





(** ** The checks of the other types *)

Lemma finish_Throw t a e :
  finish t a = Throw e →
  ∃ v, e = Error ("Invalid value for enable attribute: " +:+ v).
Proof. unfold finish. case_match; [|done]. intros [= <-]. eauto. Qed.

Lemma finish_lookup t a tag k :
  finish t a = Ok tag → k ≠ "enable" → k ≠ "priority" → attrs tag !! k = a !! k.
Proof.
  intros (_ & -> & _)%finish_Ok ? ?. by rewrite !setDefault_ne.
Qed.

Lemma lookup_setDefault_eq k v (a : gmap string string) :
  setDefault k v a !! k = Some (default v (a !! k)).
Proof. rewrite lookup_setDefault. by case_decide. Qed.

(** X8. For a line of type semver, [Parse] fails with the error of the
    missing pattern exactly when the line has no pattern; when it succeeds,
    the pattern is the one of the line and the value is the one of the line,
    or empty when the line has none. *)
Theorem semver_pattern s tag0 :
  readTag s = Ok tag0 → type tag0 = Some Semver →
  (Parse s = Throw (Error ("Missing pattern attribute for " +:+ s))
   ↔ attrs tag0 !! "pattern" = None) ∧
  (∀ tag, Parse s = Ok tag →
     attrs tag !! "pattern" = attrs tag0 !! "pattern" ∧
     attrs tag !! "value" = Some (default "" (attrs tag0 !! "value"))).
Proof.
  intros H0 Ht. rewrite (Parse_after_readTag _ _ H0), Ht. simpl.
  destruct (attrs tag0 !! "pattern") as [p|] eqn:Hp.
  - rewrite (hasOwnProperty_Some _ _ _ Hp). simpl. split.
    + split; [|done]. by intros (v & [=])%finish_Throw.
    + intros tag Hf. rewrite !(finish_lookup _ _ _ _ Hf) by done.
      by rewrite setDefault_ne, lookup_setDefault_eq.
  - rewrite (hasOwnProperty_None _ _ Hp). simpl. done.
Qed.

Lemma semver_pattern_witness :
  Parse "type=semver,value=v1" =
    Throw (Error "Missing pattern attribute for type=semver,value=v1") ∧
  ∃ tag, Parse "type=semver,pattern={{major}}" = Ok tag ∧
         attrs tag !! "pattern" = Some "{{major}}" ∧ attrs tag !! "value" = Some "".
Proof.
  split.
  - apply (semver_pattern "type=semver,value=v1"
             {| type := Some Semver; attrs := <["value" := "v1"]> ∅ |});
      [vm_compute; reflexivity|done|done].
  - destruct (semver_pattern "type=semver,pattern={{major}}"
                {| type := Some Semver; attrs := <["pattern" := "{{major}}"]> ∅ |})
      as [_ H]; [vm_compute; reflexivity|done|].
    assert (∃ tag, Parse "type=semver,pattern={{major}}" = Ok tag) as [tag HP]
      by (eexists; vm_compute; reflexivity).
    exists tag. split; [exact HP|]. destruct (H tag HP) as [-> ->].
    clear H HP. split; reflexivity.
Defined.

(** X9. For a line of type match, [Parse] fails with the error of the
    missing pattern exactly when the line has no pattern, and with the error
    of the invalid group exactly when it has a pattern and a group that is
    not a number; when it succeeds, the group is the one of the line, or 0,
    and the value the one of the line, or empty. *)
Theorem match_group s tag0 :
  readTag s = Ok tag0 → type tag0 = Some Match →
  (Parse s = Throw (Error ("Missing pattern attribute for " +:+ s))
   ↔ attrs tag0 !! "pattern" = None) ∧
  (Parse s = Throw (Error ("Invalid match group for " +:+ s))
   ↔ is_Some (attrs tag0 !! "pattern") ∧
     ∃ g, attrs tag0 !! "group" = Some g ∧ JS.isNaN (JS.Number g) = true) ∧
  (∀ tag, Parse s = Ok tag →
     attrs tag !! "group" = Some (default "0" (attrs tag0 !! "group")) ∧
     attrs tag !! "value" = Some (default "" (attrs tag0 !! "value"))).
Proof.
  intros H0 Ht. rewrite (Parse_after_readTag _ _ H0), Ht. simpl.
  destruct (attrs tag0 !! "pattern") as [p|] eqn:Hp.
  2:{ rewrite (hasOwnProperty_None _ _ Hp). simpl. split_and!; [done| |done].
      split; [intros [=]|by intros [[? [=]] _]]. }
  rewrite (hasOwnProperty_Some _ _ _ Hp). simpl.
  rewrite lookup_setDefault_eq. simpl.
  destruct (attrs tag0 !! "group") as [g|] eqn:Hg; simpl.
  - destruct (JS.isNaN (JS.Number g)) eqn:Hnum; simpl.
    + split_and!; [split; [intros [=]|done] | |done].
      split; [|done]. intros _. split; [by eexists|by eauto].
    + split_and!.
      * split; [|done]. by intros (v & [=])%finish_Throw.
      * split; [by intros (v & [=])%finish_Throw|].
        intros (_ & g' & [= <-] & Hnan). by rewrite Hnum in Hnan.
      * intros tag Hf. rewrite !(finish_lookup _ _ _ _ Hf) by done. split.
        -- rewrite setDefault_ne by done. by rewrite lookup_setDefault_eq, Hg.
        -- rewrite lookup_setDefault_eq. by rewrite setDefault_ne.
  - split_and!.
    + split; [|done]. by intros (v & [=])%finish_Throw.
    + split; [by intros (v & [=])%finish_Throw|]. by intros (_ & g' & [=] & _).
    + intros tag Hf. rewrite !(finish_lookup _ _ _ _ Hf) by done. split.
      * rewrite setDefault_ne by done. by rewrite lookup_setDefault_eq, Hg.
      * rewrite lookup_setDefault_eq. by rewrite setDefault_ne.
Qed.

Lemma match_group_witness :
  Parse "type=match,pattern=\d+,group=one" =
    Throw (Error "Invalid match group for type=match,pattern=\d+,group=one") ∧
  ∃ tag, Parse "type=match,pattern=\d+,group=0x1" = Ok tag ∧
         attrs tag !! "group" = Some "0x1" ∧ attrs tag !! "value" = Some "".
Proof.
  split.
  - apply (match_group "type=match,pattern=\d+,group=one"
             {| type := Some Match;
                attrs := <["group" := "one"]> (<["pattern" := "\d+"]> ∅) |});
      [vm_compute; reflexivity|done|].
    split; [by eexists|]. exists "one". split; [done|by vm_compute].
  - destruct (match_group "type=match,pattern=\d+,group=0x1"
                {| type := Some Match;
                   attrs := <["group" := "0x1"]> (<["pattern" := "\d+"]> ∅) |})
      as (_ & _ & H); [vm_compute; reflexivity|done|].
    assert (∃ tag, Parse "type=match,pattern=\d+,group=0x1" = Ok tag) as [tag HP]
      by (eexists; vm_compute; reflexivity).
    exists tag. split; [exact HP|]. destruct (H tag HP) as [-> ->].
    clear H HP. split; reflexivity.
Defined.

(** X10. For a line of type sha, [Parse] fails with the error of the
    invalid format exactly when the line has a format other than short and
    long; when it succeeds, the prefix is the one of the line, or sha-, and
    the format the one of the line, or short. *)
Theorem sha_format s tag0 :
  readTag s = Ok tag0 → type tag0 = Some Sha →
  (Parse s = Throw (Error ("Invalid format for " +:+ s))
   ↔ ∃ f, attrs tag0 !! "format" = Some f ∧ f ∉ ShaFormat.values) ∧
  (∀ tag, Parse s = Ok tag →
     attrs tag !! "prefix" = Some (default "sha-" (attrs tag0 !! "prefix")) ∧
     attrs tag !! "format" = Some (default "short" (attrs tag0 !! "format"))).
Proof.
  intros H0 Ht. rewrite (Parse_after_readTag _ _ H0), Ht. simpl default.
  rewrite checkType_Sha. cbn zeta.
  rewrite lookup_setDefault_eq, setDefault_ne by done.
  cbn [JS.includesProperty].
  destruct (JS.includes ShaFormat.values (default "short" (attrs tag0 !! "format")))
    eqn:Hin; cbn [negb mbind result_bind].
  - apply includes_elem_of in Hin. split.
    + split; [by intros (v & [=])%finish_Throw|].
      intros (f & Hf & Hnot). rewrite Hf in Hin. by destruct Hnot.
    + intros tag Hf. rewrite !(finish_lookup _ _ _ _ Hf) by done. split.
      * rewrite setDefault_ne by done. apply lookup_setDefault_eq.
      * rewrite lookup_setDefault_eq. by rewrite setDefault_ne.
  - assert (default "short" (attrs tag0 !! "format") ∉ ShaFormat.values) as Hnot.
    { rewrite <-includes_elem_of. by rewrite Hin. }
    split; [|done]. split; [|done]. intros _.
    destruct (attrs tag0 !! "format") as [f|]; [by eauto|].
    destruct Hnot. apply includes_elem_of. reflexivity.
Qed.

Lemma sha_format_witness :
  Parse "type=sha,format=Short" =
    Throw (Error "Invalid format for type=sha,format=Short") ∧
  ∃ tag, Parse "type=sha,prefix=" = Ok tag ∧
         attrs tag !! "prefix" = Some "" ∧ attrs tag !! "format" = Some "short".
Proof.
  split.
  - apply (sha_format "type=sha,format=Short"
             {| type := Some Sha; attrs := <["format" := "Short"]> ∅ |});
      [vm_compute; reflexivity|done|].
    exists "Short". split; [done|]. rewrite <-includes_elem_of. by vm_compute.
  - destruct (sha_format "type=sha,prefix="
                {| type := Some Sha; attrs := <["prefix" := ""]> ∅ |})
      as [_ H]; [vm_compute; reflexivity|done|].
    assert (∃ tag, Parse "type=sha,prefix=" = Ok tag) as [tag HP]
      by (eexists; vm_compute; reflexivity).
    exists tag. split; [exact HP|]. destruct (H tag HP) as [-> ->].
    clear H HP. split; reflexivity.
Defined.

(** X11. A line of type schedule or edge can only fail on [enable]: when
    [enable] is absent, true or false, [Parse] succeeds, with the pattern
    (for schedule) or the branch (for edge) of the line, or the default
    nightly or empty; otherwise it fails with the error of the invalid
    [enable]. *)
Theorem schedule_edge s tag0 :
  readTag s = Ok tag0 →
  (type tag0 = Some Schedule ∨ type tag0 = Some Edge) →
  (attrs tag0 !! "enable" = None ∨ attrs tag0 !! "enable" = Some "true"
     ∨ attrs tag0 !! "enable" = Some "false" →
   ∃ tag, Parse s = Ok tag ∧ type tag = type tag0 ∧
     (type tag0 = Some Schedule →
        attrs tag !! "pattern" = Some (default "nightly" (attrs tag0 !! "pattern"))) ∧
     (type tag0 = Some Edge →
        attrs tag !! "branch" = Some (default "" (attrs tag0 !! "branch")))) ∧
  (∀ v, attrs tag0 !! "enable" = Some v → v ≠ "true" → v ≠ "false" →
     Parse s = Throw (Error ("Invalid value for enable attribute: " +:+ v))).
Proof.
  intros H0 Ht. rewrite (Parse_after_readTag _ _ H0).
  destruct Ht as [Ht|Ht]; rewrite Ht; simpl; split.
  - intros He. rewrite finish_valid by by rewrite setDefault_ne.
    eexists. split_and!; [done..| |done]. intros _. simpl.
    rewrite !setDefault_ne by done. apply lookup_setDefault_eq.
  - intros v He ? ?. apply finish_invalid; [|done..]. by rewrite setDefault_ne.
  - intros He. rewrite finish_valid by by rewrite setDefault_ne.
    eexists. split_and!; [done..|]. intros _. simpl.
    rewrite !setDefault_ne by done. apply lookup_setDefault_eq.
  - intros v He ? ?. apply finish_invalid; [|done..]. by rewrite setDefault_ne.
Qed.

Lemma schedule_edge_witness :
  (∃ tag, Parse "type=schedule,pattern={{date 'YYYYMMDD'}}" = Ok tag ∧
          attrs tag !! "pattern" = Some "{{date 'YYYYMMDD'}}") ∧
  (∃ tag, Parse "type=edge" = Ok tag ∧ attrs tag !! "branch" = Some "") ∧
  Parse "type=edge,enable=yes" = Throw (Error "Invalid value for enable attribute: yes").
Proof.
  split_and!.
  - destruct (schedule_edge "type=schedule,pattern={{date 'YYYYMMDD'}}"
                {| type := Some Schedule;
                   attrs := <["pattern" := "{{date 'YYYYMMDD'}}"]> ∅ |})
      as [H _]; [vm_compute; reflexivity|by left|].
    destruct H as (tag & HP & _ & Hp & _); [by left|].
    exists tag. split; [exact HP|]. by apply Hp.
  - destruct (schedule_edge "type=edge" {| type := Some Edge; attrs := ∅ |})
      as [H _]; [vm_compute; reflexivity|by right|].
    destruct H as (tag & HP & _ & _ & Hb); [by left|].
    exists tag. split; [exact HP|]. by apply Hb.
  - destruct (schedule_edge "type=edge,enable=yes"
                {| type := Some Edge; attrs := <["enable" := "yes"]> ∅ |})
      as [_ H]; [vm_compute; reflexivity|by right|].
    by apply (H "yes").
Defined.

(** * Further properties of [Transform] *)

Lemma parseAll_Ok lines tags :
  parseAll lines = Ok tags ↔ Forall2 (λ line tag, Parse line = Ok tag) lines tags.
Proof.
  split; [apply parseAll_Forall2|].
  induction 1 as [|line tag lines tags HP _ IH]; simpl; [done|].
  by rewrite HP, IH.
Qed.

(** X12. [Transform] succeeds exactly when [Parse] succeeds on every line
    (on every built-in line when the input is empty). *)
Theorem Transform_succeeds_iff inputs :
  (∃ out, Transform inputs = Ok out)
  ↔ Forall (λ line, ∃ tag, Parse line = Ok tag) (linesOf inputs).
Proof.
  unfold Transform. fold (linesOf inputs). split.
  - intros [out (tags & Hp%parseAll_Forall2 & _)%bind_Ok].
    induction Hp; constructor; eauto.
  - intros Hall.
    assert (∃ tags, parseAll (linesOf inputs) = Ok tags) as [tags Htags].
    { induction Hall as [|line lines [tag HP] _ [tags IH]]; simpl; [by eauto|].
      rewrite HP, IH. simpl. eauto. }
    rewrite Htags. simpl. eauto.
Qed.

(** X13. [Transform] only rearranges: it returns as many rules as there
    are lines, each line gives exactly one of them, by [Parse], and no rule
    comes from elsewhere.  This holds whatever the priorities are. *)
Theorem Transform_rearranges inputs out :
  Transform inputs = Ok out →
  length out = length (linesOf inputs) ∧
  ∃ origin, Provenance (linesOf inputs) out origin.
Proof.
  unfold Transform. fold (linesOf inputs).
  intros (tags & Hparse & [= <-])%bind_Ok.
  apply parseAll_Forall2 in Hparse.
  split.
  { rewrite (sort_Permutation comparePriority tags).
    symmetry. by eapply Forall2_length. }
  set (sorted := sort (compareSnd comparePriority) (zip (seq 0 (length tags)) tags)).
  assert (sort comparePriority tags = sorted.*2) as Hout.
  { unfold sorted. change (compareSnd comparePriority)
      with (λ p q : nat * Tag, comparePriority p.2 q.2).
    rewrite <-(sort_fmap comparePriority snd).
    by rewrite snd_zip by by rewrite length_seq. }
  assert (sorted ≡ₚ zip (seq 0 (length tags)) tags) as Hperm
    by apply sort_Permutation.
  exists (sorted.*1). split.
  - rewrite Hperm, fst_zip by by rewrite length_seq.
    by rewrite (Forall2_length _ _ _ Hparse).
  - rewrite Hout. apply Forall2_fmap, Forall_Forall2_diag.
    rewrite Hperm. apply Forall_forall. intros [a tag] Hin. simpl.
    apply elem_of_zip_seq in Hin.
    destruct (Forall2_lookup_r _ _ _ _ _ Hparse Hin) as (line & Hline & HP).
    eauto.
Qed.

Lemma Transform_rearranges_witness :
  ∃ out, Transform ["type=sha"; "latest,priority=x"; "type=edge"] = Ok out ∧
    length out = 3 ∧
    ∃ origin, Provenance ["type=sha"; "latest,priority=x"; "type=edge"] out origin.
Proof.
  eexists. split; [vm_compute; reflexivity|].
  apply (Transform_rearranges ["type=sha"; "latest,priority=x"; "type=edge"]).
  vm_compute. reflexivity.
Defined.

(** ** Inputs that are in order already *)

Section SortSorted.
Context {A : Type} (comparefn : A → A → Z).

Lemma Sorted_middle (R : relation A) l1 y x l2 :
  Sorted R (l1 ++ y :: x :: l2) → R y x.
Proof.
  induction l1 as [|z l1 IH]; simpl; intros Hs.
  - apply Sorted_inv in Hs as [_ Hhd]. by apply HdRel_inv in Hhd.
  - apply Sorted_inv in Hs as [Hs _]. by apply IH.
Qed.

Lemma foldl_insertSorted_Sorted l : ∀ placed,
  Sorted (λ y x, ¬ after comparefn y x) (reverse placed ++ l) →
  foldl (λ placed x, insertSorted comparefn x placed) placed l = reverse l ++ placed.
Proof.
  induction l as [|x l IH]; intros placed Hs; simpl; [done|].
  assert (insertSorted comparefn x placed = x :: placed) as ->.
  { destruct placed as [|y placed]; [done|]. simpl.
    rewrite reverse_cons, <-app_assoc in Hs. apply Sorted_middle in Hs.
    unfold after in Hs. by destruct (0 <? comparefn y x)%Z. }
  rewrite IH.
  - by rewrite reverse_cons, <-app_assoc.
  - by rewrite reverse_cons, <-app_assoc.
Qed.

(** A list in which no element is put after its successor is left as it
    is. *)
Lemma sort_Sorted l :
  Sorted (λ y x, ¬ after comparefn y x) l → sort comparefn l = l.
Proof.
  intros Hs. unfold sort. rewrite foldl_insertSorted_Sorted by done.
  by rewrite app_nil_r, reverse_involutive.
Qed.
End SortSorted.

(** X14. When the priorities are numbers and no rule has a smaller
    priority than the rule of the next line, [Transform] returns the rules
    in the order of the lines; so it does, in particular, when all
    priorities are equal. *)
Theorem Transform_keeps_order inputs tags :
  parseAll (linesOf inputs) = Ok tags →
  Forall (λ tag, JS.isNaN (priority tag) = false) tags →
  Sorted (λ t1 t2, JS.lt (priority t1) (priority t2) = false) tags →
  Transform inputs = Ok tags.
Proof.
  intros Hp _ Hs. unfold Transform. fold (linesOf inputs). rewrite Hp. simpl.
  f_equal. apply sort_Sorted. clear Hp.
  induction Hs as [|t1 l Hs IH Hhd]; [constructor|].
  constructor; [done|]. destruct Hhd as [|t2 l Hlt]; constructor.
  rewrite after_comparePriority. by rewrite Hlt.
Qed.

Lemma Transform_keeps_order_witness :
  ∃ branch tag pr,
    Parse "type=ref,event=branch" = Ok branch ∧
    Parse "type=ref,event=tag,priority=600.0" = Ok tag ∧
    Parse "type=ref,event=pr,priority=1e2" = Ok pr ∧
    Transform ["type=ref,event=branch"; "type=ref,event=tag,priority=600.0";
               "type=ref,event=pr,priority=1e2"] = Ok [branch; tag; pr].
Proof.
  do 3 eexists. do 3 (split; [vm_compute; reflexivity|]).
  apply Transform_keeps_order; [vm_compute; reflexivity| |].
  - repeat (apply Forall_cons; split; [vm_compute; reflexivity|]).
    apply Forall_nil. exact I.
  - repeat constructor.
Defined.

(** ** The default priorities *)

Lemma Parse_default_priority s tag0 tag :
  readTag s = Ok tag0 → attrs tag0 !! "priority" = None → Parse s = Ok tag →
  ∃ t, type tag = Some t ∧ priority tag = JS.Number (DefaultPriorities t).
Proof.
  intros H0 Hnone HP. rewrite (Parse_after_readTag _ _ H0) in HP.
  apply bind_Ok in HP as (a & Hc & Hf).
  pose proof (finish_Ok _ _ _ Hf) as (Ht & Ha & _).
  eexists. split; [done|]. unfold priority. rewrite Ha, lookup_setDefault_eq.
  rewrite setDefault_ne by done.
  by rewrite (checkType_enable_priority _ _ _ _ "priority" Hc), Hnone by auto.
Qed.

(** X15. Between two rules whose lines supply no priority, the one whose
    type comes first in the list schedule, semver, match, edge, ref, raw,
    sha has the greater priority, and two rules of the same type have equal
    priorities. *)
Theorem default_priority_by_type s1 s2 tag01 tag02 tag1 tag2 t1 t2 :
  readTag s1 = Ok tag01 → attrs tag01 !! "priority" = None →
  readTag s2 = Ok tag02 → attrs tag02 !! "priority" = None →
  Parse s1 = Ok tag1 → type tag1 = Some t1 →
  Parse s2 = Ok tag2 → type tag2 = Some t2 →
  (JS.lt (priority tag2) (priority tag1) = true ↔ typeRank t1 < typeRank t2) ∧
  (JS.eq (priority tag1) (priority tag2) = true ↔ t1 = t2).
Proof.
  intros H01 Hn1 H02 Hn2 HP1 Ht1 HP2 Ht2.
  destruct (Parse_default_priority _ _ _ H01 Hn1 HP1) as (t1' & Ht1' & ->).
  destruct (Parse_default_priority _ _ _ H02 Hn2 HP2) as (t2' & Ht2' & ->).
  clear HP1 HP2 H01 H02. simplify_eq.
  destruct t1, t2; vm_compute; split; (split; [intros; try done; lia|intros; try done; lia]).
Qed.

Lemma default_priority_by_type_witness :
  ∃ tag1 tag2, Parse "type=edge" = Ok tag1 ∧ Parse "latest" = Ok tag2 ∧
    JS.lt (priority tag2) (priority tag1) = true.
Proof.
  do 2 eexists. do 2 (split; [vm_compute; reflexivity|]).
  eapply (default_priority_by_type "type=edge" "latest"
            {| type := Some Edge; attrs := ∅ |}
            {| type := None; attrs := <["value" := "latest"]> ∅ |}
            _ _ Edge Raw).
  1-8: try (vm_compute; reflexivity).
  simpl. lia.
Defined.

(** * Further properties of the tokenizer *)

Lemma discover_no_break st c s :
  Ascii.eqb c Csv.cr = false → Ascii.eqb c Csv.nl = false →
  Csv.discover st (String c s) = st.
Proof.
  intros Hcr Hnl. destruct (Csv.record_delimiter st) eqn:Hrd.
  - unfold Csv.discover. by rewrite Hrd.
  - by apply discover_plain.
Qed.

Lemma discover_empty st : Csv.discover st "" = st.
Proof.
  unfold Csv.discover. destruct (Csv.record_delimiter st) eqn:Hrd; [done|].
  destruct st; simpl in *; by subst.
Qed.

Lemma isRecordDelimiter_no_break rd c s :
  Ascii.eqb c Csv.cr = false → Ascii.eqb c Csv.nl = false →
  Csv.isRecordDelimiter rd (String c s) = 0.
Proof.
  intros Hcr Hnl. destruct rd as [[]|]; simpl; rewrite ?Hcr, ?Hnl; try done.
  by destruct s.
Qed.

(** A plain stretch of input is read by its commas, whatever follows it
    and whatever record delimiter is known. *)
Lemma parse_loop_plain_app a : ∀ st b,
  plain a = true → Csv.quoting st = false → Csv.escaping st = false →
  Csv.parse_loop st (a +:+ b) = Csv.parse_loop (feed st (JS.split "," a)) b.
Proof.
  induction a as [|c a IH]; intros st b Hp Hq He.
  - rewrite append_nil_l. simpl. rewrite append_nil_r. by destruct st.
  - unfold plain in Hp. simpl in Hp.
    rewrite !andb_true_iff, !negb_true_iff, !orb_false_iff in Hp.
    destruct Hp as [[[Hdq Hp1] [Hcr Hp2]] [Hnl Hp3]].
    assert (plain a = true) as Hps.
    { unfold plain. by rewrite Hp1, Hp2, Hp3. }
    rewrite append_cons. cbn [Csv.parse_loop].
    rewrite Hq, (discover_no_break _ _ _ Hcr Hnl).
    rewrite He, Hq. unfold Csv.isQuote. rewrite Hdq. cbn [andb].
    rewrite (isRecordDelimiter_no_break _ _ _ Hcr Hnl).
    cbn [JS.split]. unfold Csv.isDelimiter.
    destruct (Ascii.eqb c ",") eqn:Hc.
    + rewrite IH by done. f_equal.
      destruct (split_cons "," a) as (p & ps & ->).
      destruct st; destruct ps; simpl;
        by rewrite ?append_nil_l, ?append_nil_r, <-?app_assoc.
    + rewrite IH by done. f_equal.
      destruct (split_cons "," a) as (p & ps & ->).
      destruct st; destruct ps; simpl; by rewrite append_assoc.
Qed.

(** Inside quotes, everything up to the closing quote belongs to the
    field, a doubled quote standing for one quote. *)
Lemma parse_loop_quoted s : ∀ st rest,
  Csv.quoting st = true → Csv.escaping st = false →
  (rest = "" ∨ ∃ r, rest = String "," r) →
  Csv.parse_loop st (escapeQuotes s +:+ String Csv.dquote rest) =
  Csv.parse_loop (reading st true (Csv.field st +:+ s) (Csv.record st)) rest.
Proof.
  induction s as [|c s IH]; intros st rest Hq He Hrest.
  - rewrite append_nil_l, append_nil_r. cbn [Csv.parse_loop].
    rewrite Hq, He. unfold Csv.isQuote at 1 2. rewrite Ascii.eqb_refl, Hq.
    cbn [andb].
    assert (Csv.nextIsQuote rest = false) as -> by by destruct Hrest as [->|[r ->]].
    assert (Csv.discover st rest = st) as ->.
    { destruct Hrest as [->|[r ->]]; [apply discover_empty|].
      by apply discover_no_break. }
    assert (Csv.endsField (Csv.record_delimiter st) rest = true) as ->
      by by destruct Hrest as [->|[r ->]].
    f_equal. unfold Csv.set_quoting, reading. by rewrite He.
  - simpl escapeQuotes. destruct (Csv.isQuote c) eqn:Hc.
    + rewrite !append_cons. cbn [Csv.parse_loop]. rewrite Hq, He, Hc.
      cbn [andb Csv.nextIsQuote]. rewrite Hc.
      cbn [Csv.set_escaping Csv.quoting Csv.escaping].
      rewrite Hq. rewrite IH; [|done..].
      f_equal. unfold reading. simpl. by rewrite append_assoc.
    + rewrite append_cons. cbn [Csv.parse_loop]. rewrite Hq, He, Hc, Hq.
      cbn [andb]. rewrite IH; [|done..].
      f_equal. unfold reading. simpl. by rewrite append_assoc.
Qed.

(** One quoted field, from a state that starts a field. *)
Lemma parse_loop_quoted_field s st rest :
  Csv.quoting st = false → Csv.escaping st = false → Csv.field st = "" →
  (rest = "" ∨ ∃ r, rest = String "," r) →
  Csv.parse_loop st (quoted s +:+ rest) =
  Csv.parse_loop (reading st true s (Csv.record st)) rest.
Proof.
  intros Hq He Hf Hrest. unfold quoted.
  rewrite append_cons, append_assoc, append_cons, append_nil_l.
  cbn [Csv.parse_loop]. rewrite Hq.
  rewrite discover_no_break by done.
  rewrite He, Hq. unfold Csv.isQuote at 1 2. rewrite Ascii.eqb_refl.
  cbn [andb]. rewrite Hf. cbn [String.eqb negb].
  rewrite parse_loop_quoted by done.
  f_equal. unfold reading. simpl. by rewrite Hf, append_nil_l.
Qed.

(** One plain field without comma. *)
Lemma parse_loop_plain_field s st rest :
  plain s = true → occurs "," s = false →
  Csv.quoting st = false → Csv.escaping st = false → Csv.field st = "" →
  Csv.parse_loop st (s +:+ rest) =
  Csv.parse_loop (reading st (Csv.wasQuoting st) s (Csv.record st)) rest.
Proof.
  intros Hp Hc Hq He Hf. rewrite parse_loop_plain_app by done.
  rewrite split_no_sep by done. f_equal.
  destruct st; simpl in *; subst. by rewrite append_nil_l.
Qed.

Lemma parse_loop_comma st w fld rec rest :
  Csv.parse_loop (reading st w fld rec) (String "," rest) =
  Csv.parse_loop (reading st false "" (rec ++ [fld])) rest.
Proof.
  cbn [Csv.parse_loop reading Csv.quoting Csv.escaping].
  rewrite discover_no_break by done. cbn [reading Csv.quoting Csv.escaping andb].
  cbn [Csv.isQuote]. unfold Csv.isQuote. cbn.
  rewrite isRecordDelimiter_no_break by done. done.
Qed.

Lemma parse_loop_record fields encs :
  Forall2 encodes fields encs → fields ≠ [] →
  ∀ st, Csv.quoting st = false → Csv.escaping st = false → Csv.field st = "" →
  ∃ w, Csv.parse_loop st (join "," encs) =
       Ok (reading st w (List.last fields "") (Csv.record st ++ removelast fields)).
Proof.
  induction 1 as [|f e fields encs Hfe Hall IH]; [done|]. intros _ st Hq He Hf.
  assert (∀ rest, (rest = "" ∨ ∃ r, rest = String "," r) →
            ∃ w, Csv.parse_loop st (e +:+ rest) =
                 Csv.parse_loop (reading st w f (Csv.record st)) rest) as Hfield.
  { intros rest Hrest. destruct Hfe as [->|(-> & Hp & Hc)].
    - exists true. by apply parse_loop_quoted_field.
    - exists (Csv.wasQuoting st). by apply parse_loop_plain_field. }
  destruct Hall as [|g e' fields encs Hge Hall].
  - destruct (Hfield "") as [w Hw]; [by left|]. exists w.
    rewrite append_nil_r in Hw. simpl. by rewrite Hw, app_nil_r.
  - destruct (Hfield (String "," (join "," (e' :: encs)))) as [w Hw]; [by eauto|].
    change (join "," (e :: e' :: encs))
      with (e +:+ String "," (join "," (e' :: encs))).
    rewrite Hw, parse_loop_comma.
    destruct (IH ltac:(done) (reading st false "" (Csv.record st ++ [f])))
      as [w' Hw']; [done..|].
    exists w'. rewrite Hw'. unfold reading. simpl. by rewrite <-app_assoc.
Qed.

(** X16. Quoting round trip.  When a line is made of fields separated by
    commas, each written between double quotes with its quotes doubled, or
    as it is if it has no quote, line break or comma, the tokens that
    [Parse] reads are these fields: a quoted field may hold commas, quotes
    and line breaks.  (At least one field must not be blank.) *)
Theorem tokens_of_encoded_fields fields encs :
  Forall2 encodes fields encs → Csv.isRecordEmpty fields = false →
  fieldsOf (join "," encs) = Ok fields.
Proof.
  intros Henc Hne.
  assert (fields ≠ []) as Hnil by by intros ->.
  destruct (parse_loop_record _ _ Henc Hnil Csv.init) as [w Hw]; [done..|].
  unfold fieldsOf, Csv.csvparse. rewrite Hw. simpl.
  pose proof (app_removelast_last "" Hnil) as Hlast.
  unfold Csv.parse_end. cbn [reading Csv.quoting Csv.wasQuoting Csv.record Csv.field].
  destruct (w || negb (length (removelast fields) =? 0)
              || negb (String.eqb (List.last fields "") "")) eqn:Hcond.
  - simpl. rewrite <-Hlast, Hne. done.
  - exfalso. rewrite !orb_false_iff, !negb_false_iff in Hcond.
    destruct Hcond as [[_ Hlen] Hl].
    apply Nat.eqb_eq, nil_length_inv in Hlen. apply String.eqb_eq in Hl.
    rewrite Hlen, Hl in Hlast. by rewrite Hlast in Hne.
Qed.

Lemma tokens_of_encoded_fields_witness :
  fieldsOf (join "," ["type=match"; quoted "pattern=\d{1,3},x"; "group=0"])
  = Ok ["type=match"; "pattern=\d{1,3},x"; "group=0"].
Proof.
  apply tokens_of_encoded_fields; [|by vm_compute].
  constructor; [right; by vm_compute|].
  constructor; [by left|].
  constructor; [right; by vm_compute|]. constructor.
Defined.

(** ** A line with one double quote *)

Lemma parse_loop_in_quotes b : ∀ st,
  Csv.quoting st = true → Csv.escaping st = false → occurs Csv.dquote b = false →
  ∃ st', Csv.parse_loop st b = Ok st' ∧ Csv.quoting st' = true.
Proof.
  induction b as [|c b IH]; intros st Hq He Hb; simpl in *.
  - by eauto.
  - apply orb_false_iff in Hb as [Hc Hb]. rewrite Hq, He.
    unfold Csv.isQuote. rewrite Hc, Hq. cbn [andb]. by apply IH.
Qed.

(** X17. A line with exactly one double quote, before which there is no
    line break, is refused by the tokenizer, and [Parse] fails with its
    error: the quote is not closed when it starts a token, and it is an
    invalid opening quote when it comes later in a token. *)
Theorem Parse_single_quote a b :
  plain a = true → occurs Csv.dquote b = false →
  Parse (a +:+ String Csv.dquote b) =
    Throw (CsvError (if String.eqb (List.last (JS.split "," a) "") ""
                     then CSV_QUOTE_NOT_CLOSED else INVALID_OPENING_QUOTE)).
Proof.
  intros Hp Hb. unfold Parse, readTag, fieldsOf, Csv.csvparse.
  rewrite parse_loop_plain_app by done.
  set (st := feed Csv.init (JS.split "," a)).
  assert (Csv.quoting st = false ∧ Csv.escaping st = false ∧
          Csv.field st = List.last (JS.split "," a) "") as (Hq & He & Hf).
  { unfold st. destruct (split_cons "," a) as (p & ps & ->).
    destruct ps; simpl; by rewrite ?append_nil_l. }
  cbn [Csv.parse_loop]. rewrite Hq, discover_no_break by done.
  rewrite He, Hq. unfold Csv.isQuote at 1 2. rewrite Ascii.eqb_refl. cbn [andb].
  rewrite Hf. destruct (String.eqb (List.last (JS.split "," a) "") ""); [|done].
  cbn [negb].
  destruct (parse_loop_in_quotes b (Csv.set_quoting true (Csv.wasQuoting st) st))
    as (st' & -> & Hq'); [done..|].
  simpl. unfold Csv.parse_end. by rewrite Hq'.
Qed.

Lemma Parse_single_quote_witness :
  Parse ("type=raw," +:+ String Csv.dquote "value=a,b")
    = Throw (CsvError CSV_QUOTE_NOT_CLOSED) ∧
  Parse ("type=raw,value=6" +:+ String Csv.dquote " screen")
    = Throw (CsvError INVALID_OPENING_QUOTE).
Proof.
  split.
  - apply (Parse_single_quote "type=raw," "value=a,b"); by vm_compute.
  - apply (Parse_single_quote "type=raw,value=6" " screen"); by vm_compute.
Defined.

(** ** Several lines in one input *)

(** A line feed, when no record delimiter is known yet, becomes the
    record delimiter and ends the record. *)
Lemma parse_loop_line_feed st rest :
  Csv.quoting st = false → Csv.escaping st = false →
  Csv.record_delimiter st = None →
  ∃ st1, Csv.parse_loop st (String Csv.nl rest) = Csv.parse_loop st1 rest ∧
         Csv.quoting st1 = false ∧ Csv.escaping st1 = false ∧
         Csv.records st1 =
           (if Csv.isRecordEmpty (Csv.record st ++ [Csv.field st])
            then Csv.records st
            else Csv.records st ++ [Csv.record st ++ [Csv.field st]]).
Proof.
  intros Hq He Hrd. destruct st as [q wq e f r rs rd]. simpl in *. subst.
  eexists. split; [reflexivity|]. done.
Qed.

(** X18. When the input holds two lines separated by a line feed, without
    quotes, and the first has a field that is not blank, only the first is
    read: the tokens are those of the first line, and what follows the line
    feed is ignored, without error. *)
Theorem readTag_first_line l1 l2 :
  plain l1 = true → plain l2 = true →
  Csv.isRecordEmpty (JS.split "," l1) = false →
  fieldsOf (l1 +:+ String Csv.nl l2) = Ok (JS.split "," l1) ∧
  readTag (l1 +:+ String Csv.nl l2) = readTag l1.
Proof.
  intros Hp1 Hp2 Hne.
  assert (fieldsOf (l1 +:+ String Csv.nl l2) = Ok (JS.split "," l1)) as Hf.
  { unfold fieldsOf, Csv.csvparse. rewrite parse_loop_plain_app by done.
    set (st := feed Csv.init (JS.split "," l1)).
    assert (Csv.quoting st = false ∧ Csv.escaping st = false ∧
            Csv.record_delimiter st = None ∧ Csv.records st = [] ∧
            Csv.record st ++ [Csv.field st] = JS.split "," l1)
      as (Hq & He & Hrd & Hrs & Hrec).
    { unfold st. destruct (split_cons "," l1) as (p & ps & ->).
      destruct ps as [|p' ps]; [by simpl|]. split_and!; [done..|].
      cbn [feed Csv.record Csv.field Csv.init app]. rewrite append_nil_l.
      exact (removelast_last_cons p (p' :: ps)). }
    destruct (parse_loop_line_feed st l2 Hq He Hrd) as (st1 & -> & Hq1 & He1 & Hrs1).
    rewrite Hrec, Hne, Hrs in Hrs1. simpl in Hrs1.
    rewrite <-(append_nil_r l2), parse_loop_plain_app by done.
    cbn [Csv.parse_loop mbind result_bind].
    assert (∀ pieces, Csv.records (feed st1 pieces) = Csv.records st1 ∧
                      Csv.quoting (feed st1 pieces) = Csv.quoting st1) as Hfeed.
    { intros [|p [|p' ps]]; done. }
    destruct (Hfeed (JS.split "," l2)) as [Hrs2 Hq2].
    unfold Csv.parse_end. rewrite Hq2, Hq1.
    case_match; simpl; rewrite Hrs2, Hrs1; [|done].
    destruct (Csv.isRecordEmpty (Csv.record (feed st1 (JS.split "," l2)) ++ _));
      reflexivity. }
  split; [done|]. unfold readTag. rewrite Hf.
  by rewrite (fieldsOf_plain l1 Hp1), Hne.
Qed.

Lemma readTag_first_line_witness :
  fieldsOf ("type=sha" +:+ String Csv.nl "type=bogus") = Ok ["type=sha"] ∧
  ∃ tag, Parse ("type=sha" +:+ String Csv.nl "type=bogus") = Ok tag ∧
         type tag = Some Sha.
Proof.
  destruct (readTag_first_line "type=sha" "type=bogus") as [Hf _];
    [by vm_compute..|].
  split; [exact Hf|]. eexists. split; [vm_compute; reflexivity|].
  vm_compute. reflexivity.
Defined.

(** * Numbers written in digits *)

Section Rounding.
#[local] Abbreviation prec := JS.prec.
#[local] Abbreviation emax := JS.emax.

Lemma shr_1_nonneg mrs : (0 <= shr_m mrs)%Z → (0 <= shr_m (shr_1 mrs))%Z.
Proof. destruct mrs as [[|[p|p|]|p] r s]; simpl; lia. Qed.

Lemma iter_pos_shr_1_nonneg p : ∀ mrs,
  (0 <= shr_m mrs)%Z → (0 <= shr_m (SpecFloat.iter_pos shr_1 p mrs))%Z.
Proof.
  induction p as [p IH|p IH|]; intros mrs Hm; simpl.
  - by apply IH, IH, shr_1_nonneg.
  - by apply IH, IH.
  - by apply shr_1_nonneg.
Qed.

Lemma shr_fexp_nonneg m e l :
  (0 <= m)%Z → (0 <= shr_m (shr_fexp prec emax m e l).1)%Z.
Proof.
  intros Hm. unfold shr_fexp, shr.
  assert (shr_m (shr_record_of_loc m l) = m) as Hrec by by destruct l as [|[]].
  case_match; simpl; rewrite ?Hrec; try done.
  apply iter_pos_shr_1_nonneg. by rewrite Hrec.
Qed.

Lemma round_nearest_even_nonneg m l : (0 <= m)%Z → (0 <= round_nearest_even m l)%Z.
Proof. intros Hm. destruct l as [|[]]; simpl; try done; [case_match|]; lia. Qed.

(** Rounding a natural mantissa never gives NaN. *)
Lemma binary_round_aux_not_NaN sx mx ex lx :
  (0 <= mx)%Z → JS.isNaN (binary_round_aux prec emax sx mx ex lx) = false.
Proof.
  intros Hm. unfold binary_round_aux.
  pose proof (shr_fexp_nonneg mx ex lx Hm) as H1.
  destruct (shr_fexp prec emax mx ex lx) as [mrs' e']. simpl in H1.
  pose proof (shr_fexp_nonneg
                (round_nearest_even (shr_m mrs') (loc_of_shr_record mrs')) e' loc_Exact
                (round_nearest_even_nonneg _ _ H1)) as H2.
  destruct (shr_fexp prec emax _ e' loc_Exact) as [mrs'' e'']. simpl in H2.
  destruct (shr_m mrs''); [done| |lia]. by case_match.
Qed.

Lemma ofDecimal_not_NaN neg m e :
  (0 <= m)%Z → JS.isNaN (JS.ofDecimal neg m e) = false.
Proof.
  intros Hm. unfold JS.ofDecimal. case_match; [done|]. case_match.
  - unfold binary_normalize, binary_round.
    destruct (cond_Zopp neg (m * 10 ^ e)); [done|..];
      case_match; by apply binary_round_aux_not_NaN.
  - unfold SFdiv_core_binary.
    set (m' := match (0 - 0 - _)%Z with Z0 => m | Zpos _ => _ | Zneg _ => 0%Z end).
    assert (0 <= m')%Z as Hm'.
    { unfold m'. case_match; [done| |done]. by apply Z.shiftl_nonneg. }
    assert (0 < 10 ^ (- e))%Z as Hpow by (apply Z.pow_pos_nonneg; lia).
    pose proof (Z.div_pos m' (10 ^ (- e)) Hm' Hpow) as Hq.
    unfold Z.div in Hq. destruct (Z.div_eucl m' (10 ^ (- e))) as [q r].
    by apply binary_round_aux_not_NaN.
Qed.
End Rounding.

Lemma isDigit_digitValue c : isDigit c = true → is_Some (JS.digitValue 10 c).
Proof. destruct c as [[] [] [] [] [] [] [] []]; try done; by eexists. Qed.

Lemma isDigit_not_space c : isDigit c = true → JS.isWhiteSpace c = false.
Proof. by destruct c as [[] [] [] [] [] [] [] []]. Qed.

Lemma readDigits_allDigits s : ∀ acc len,
  allDigits s = true →
  ∃ n, JS.readDigits 10 acc len s = (n, len + String.length s, "").
Proof.
  induction s as [|c s IH]; intros acc len Hs; simpl in *.
  - exists acc. by rewrite Nat.add_0_r.
  - apply andb_true_iff in Hs as [Hc Hs].
    destruct (isDigit_digitValue c Hc) as [d ->].
    destruct (IH (acc * 10 + d)%N (S len) Hs) as [n ->].
    exists n. do 2 f_equal. lia.
Qed.

Lemma trim_allDigits s : allDigits s = true → JS.trim s = s.
Proof.
  intros Hs. unfold JS.trim.
  assert (JS.trimEnd s = s) as ->.
  { induction s as [|c s IH]; simpl in *; [done|].
    apply andb_true_iff in Hs as [Hc Hs]. rewrite (IH Hs).
    rewrite (isDigit_not_space c Hc). by destruct s. }
  destruct s as [|c s]; simpl in *; [done|].
  apply andb_true_iff in Hs as [Hc Hs]. by rewrite (isDigit_not_space c Hc).
Qed.

(** A literal that starts with a digit and has no prefix of another base
    is read as a decimal literal. *)
Lemma Number_digit_first c s :
  isDigit c = true → allDigits s = true →
  JS.Number (String c s) = JS.readUnsignedDecimal false (String c s).
Proof.
  intros Hc Hs. unfold JS.Number.
  rewrite trim_allDigits by by simpl; rewrite Hc.
  destruct c as [[] [] [] [] [] [] [] []]; try done.
  destruct s as [|c2 s]; [done|]. simpl in Hs.
  apply andb_true_iff in Hs as [Hc2 _].
  by destruct c2 as [[] [] [] [] [] [] [] []].
Qed.

Lemma Number_allDigits s : allDigits s = true → JS.isNaN (JS.Number s) = false.
Proof.
  intros Hs. destruct s as [|c s]; [done|].
  pose proof Hs as Hs'. simpl in Hs'. apply andb_true_iff in Hs' as [Hc Hs'].
  rewrite Number_digit_first by done. unfold JS.readUnsignedDecimal.
  destruct (readDigits_allDigits (String c s) 0 0 Hs) as [n ->].
  simpl. apply ofDecimal_not_NaN. lia.
Qed.

(** X19. A rule whose line supplies no priority, or one written in
    decimal digits only, has a priority that is a number: such lines meet
    the condition under which [Transform] orders the rules by priority. *)
Theorem priority_numeric s tag0 tag :
  readTag s = Ok tag0 → Parse s = Ok tag →
  (∀ p, attrs tag0 !! "priority" = Some p → allDigits p = true) →
  JS.isNaN (priority tag) = false.
Proof.
  intros H0 HP Hdig.
  destruct (attrs tag0 !! "priority") as [p|] eqn:Hp.
  - unfold priority. rewrite (Parse_preserves _ _ _ _ _ H0 HP Hp). simpl.
    by apply Number_allDigits, Hdig.
  - destruct (Parse_default_priority _ _ _ H0 Hp HP) as (t & _ & ->).
    apply DefaultPriorities_numeric.
Qed.

Lemma priority_numeric_witness :
  ∃ tag, Parse "edge,priority=00750" = Ok tag ∧ JS.isNaN (priority tag) = false.
Proof.
  eexists. split; [vm_compute; reflexivity|].
  apply (priority_numeric "edge,priority=00750"
           {| type := None;
              attrs := <["priority" := "00750"]> (<["value" := "edge"]> ∅) |}).
  - vm_compute. reflexivity.
  - vm_compute. reflexivity.
  - intros p [= <-]. by vm_compute.
Defined.
